(** * Multi-match checker for destination rules

    A shallow embedding of
    [business/checkers/destinationrules/multi_match_checker.go]:
    the host normaliser, the mTLS exemption test, the subset extractor,
    the collision check and the single left-to-right pass of [Check].

    Conventions of the embedding.
    - Go strings are byte strings: [string].
    - [interface{}] values are the inductive [value]; a type assertion is a
      [match] on its constructor.
    - Go maps are [gmap]s.  A [range] over a map visits its entries in an
      unspecified order.  The executable functions visit [map_to_list]; the
      relations of section "Any iteration order" let every [range] choose any
      permutation, and are shown to reach the same result.
    - A run-time panic (index out of range, write to a nil map) is [None]. *)

From Stdlib Require Import Ascii String.
From stdpp Require Import gmap strings list fin_maps.

Set Warnings "-register-all,-clear-no-such-hyp".
Local Open Scope string_scope.

(** ** The packages the checker imports *)

(** [interface{}] as decoded from a configuration document. *)
Inductive value : Type :=
  | VNil
  | VBool (b : bool)
  | VInt (z : Z)
  | VString (s : string)
  | VSlice (l : list value)
  | VMap (m : gmap string value).

Module kubernetes.
(** The part of [meta_v1.ObjectMeta] the checker reads. *)
Record ObjectMeta : Type := {
  Name : string;
  Namespace : string;
  ClusterName : string
}.

(** [kubernetes.IstioObject], an interface; the checker calls exactly
    [GetSpec] and [GetObjectMeta]. *)
Record IstioObject : Type := {
  GetSpec : gmap string value;
  GetObjectMeta : ObjectMeta
}.
End kubernetes.

Module models.
Record IstioValidationKey : Type := {
  KeyObjectType : string;
  KeyName : string
}.

#[global] Instance IstioValidationKey_eq_dec : EqDecision IstioValidationKey.
Proof. solve_decision. Defined.

#[global] Instance IstioValidationKey_countable : Countable IstioValidationKey.
Proof.
  refine (inj_countable' (λ k, (KeyObjectType k, KeyName k))
            (λ p, {| KeyObjectType := p.1; KeyName := p.2 |}) _).
  by intros [].
Defined.

(** Modelled from the spec: [models.IstioCheck] and [models.Build] are not
    part of the checker's file.  A check is determined by the check code
    and the attribute path it is built from. *)
Record IstioCheck : Type := {
  CheckCode : string;
  Path : string
}.

Definition Build (checkId path : string) : IstioCheck :=
  {| CheckCode := checkId; Path := path |}.

Record IstioValidation : Type := {
  Name : string;
  ObjectType : string;
  Valid : bool;
  Checks : list IstioCheck
}.

Abbreviation IstioValidations := (gmap IstioValidationKey IstioValidation).

(** Modelled from the spec: [MergeValidations] is not part of the checker's
    file.  The merge is additive by key and does not overwrite a key that
    is already present. *)
Definition MergeValidations (iv validations : IstioValidations)
  : IstioValidations :=
  iv ∪ validations.
End models.

Import kubernetes models.

(** ** The checker *)

Definition DestinationRulesCheckerType : string := "destinationrule".

Record MultiMatchChecker : Type := {
  DestinationRules : list IstioObject
}.

Record Host : Type := {
  Service : string;
  Namespace : string;
  Cluster : string
}.

Record subset : Type := {
  Name : string;
  RuleName : string
}.

#[global] Instance Host_eq_dec : EqDecision Host.
Proof. solve_decision. Defined.

#[global] Instance subset_eq_dec : EqDecision subset.
Proof. solve_decision. Defined.

(** *** [strings.Split] and [strings.Join] for a one-byte separator *)

Fixpoint Split (s : string) (sep : ascii) : list string :=
  match s with
  | EmptyString => [EmptyString]
  | String c rest =>
      if decide (c = sep) then EmptyString :: Split rest sep
      else match Split rest sep with
           | [] => [String c EmptyString]
           | part :: parts => String c part :: parts
           end
  end.

Fixpoint Join (elems : list string) (sep : string) : string :=
  match elems with
  | [] => ""
  | e :: rest =>
      match rest with
      | [] => e
      | _ :: _ => e +:+ sep +:+ Join rest sep
      end
  end.

(** *** [FormatHostnameForPrefixSearch]

    [domainParts[0]] and [domainParts[1]] are slice indexings: out of range
    they panic, here [None]. *)
Definition FormatHostnameForPrefixSearch
    (hostName namespace clusterName : string) : option Host :=
  let domainParts := Split hostName "."%char in
  service ← domainParts !! 0%nat;
  host ← (if decide (1 < length domainParts)%nat then
            ns ← domainParts !! 1%nat;
            if decide (2 < length domainParts)%nat then
              Some {| Service := service; Namespace := ns;
                      Cluster := Join (drop 2 domainParts) "." |}
            else Some {| Service := service; Namespace := ns; Cluster := "" |}
          else Some {| Service := service; Namespace := ""; Cluster := "" |});
  let host :=
    if decide (Cluster host = "") then
      {| Service := Service host; Namespace := Namespace host;
         Cluster := clusterName |}
    else host in
  let host :=
    if decide (Namespace host = "") then
      {| Service := Service host; Namespace := namespace;
         Cluster := Cluster host |}
    else host in
  Some host.


(** *** [enablesNonLocalmTLS] *)
Definition enablesNonLocalmTLS (dr : IstioObject) (fdqn : Host) : bool :=
  if decide (Service fdqn ≠ "*") then false
  else
    match GetSpec dr !! "trafficPolicy" with
    | Some (VMap trafficCasted) =>
        match trafficCasted !! "tls" with
        | Some (VMap tlsCasted) =>
            match tlsCasted !! "mode" with
            | Some (VString modeCasted) =>
                bool_decide (modeCasted = "ISTIO_MUTUAL")
            | _ => false
            end
        | _ => false
        end
    | _ => false
    end.

(** *** [extractSubsets]

    The loop appends to [foundSubsets] in slice order. *)
Definition extractSubsets (dr : IstioObject) (destinationRulesName : string)
  : list subset :=
  match GetSpec dr !! "subsets" with
  | Some (VSlice subsetSlice) =>
      foldl
        (λ foundSubsets se,
           match se with
           | VMap element =>
               match element !! "name" with
               | Some (VString n) =>
                   (foundSubsets
                    ++ [{| Name := n; RuleName := destinationRulesName |}])%list
               | _ => foundSubsets
               end
           | _ => foundSubsets
           end)
        [] subsetSlice
  | _ => [{| Name := "~"; RuleName := destinationRulesName |}]
  end.

(** *** [addError]

    The validations map is shared with the caller and updated in place;
    here it is passed in and returned. *)
Definition addError (validations : IstioValidations)
    (destinationRuleNames : list string) : IstioValidations :=
  foldl
    (λ validations destinationRuleName,
       let key := {| KeyObjectType := DestinationRulesCheckerType;
                     KeyName := destinationRuleName |} in
       let checks := Build "destinationrules.multimatch" "spec/host" in
       let rrValidation :=
         {| models.Name := destinationRuleName;
            ObjectType := DestinationRulesCheckerType;
            Valid := true;
            Checks := [checks] |} in
       match validations !! key with
       | None => MergeValidations validations {[ key := rrValidation ]}
       | Some _ => validations
       end)
    validations destinationRuleNames.

(** *** [checkCollisions]

    [order] is the order in which [range existing] visits the map. *)
Definition checkCollisions_in (order : list (string * string))
    (validations : IstioValidations) (destinationRulesName : string)
    (foundSubsets : list subset) (existing : gmap string string)
  : IstioValidations :=
  let validations :=
    if bool_decide (length foundSubsets = 1%nat)
       && bool_decide (Name <$> foundSubsets !! 0%nat = Some "~")
    then foldl (λ validations kv,
                  addError validations [destinationRulesName; kv.2])
           validations order
    else validations in
  let validations :=
    match existing !! "~" with
    | Some ruleName => addError validations [destinationRulesName; ruleName]
    | None => validations
    end in
  foldl
    (λ validations s,
       match existing !! Name s with
       | Some ruleName => addError validations [destinationRulesName; ruleName]
       | None => validations
       end)
    validations foundSubsets.

Definition checkCollisions (validations : IstioValidations)
    (destinationRulesName : string) (foundSubsets : list subset)
    (existing : gmap string string) : IstioValidations :=
  checkCollisions_in (map_to_list existing) validations destinationRulesName
    foundSubsets existing.

(** *** [Check]

    [seenHostSubsets] maps a service to the subsets claimed for it and
    their owners.  [Check_body] is the body of the loop over
    [m.DestinationRules], on the pair of the two maps the loop updates. *)
Abbreviation CollisionIndex := (gmap string (gmap string string)).

Fixpoint foldM {A B : Type} (f : B → A → option B) (b : B) (l : list A)
  : option B :=
  match l with
  | [] => Some b
  | a :: l => b' ← f b a; foldM f b' l
  end.

(** [for _, s := range foundSubsets
       { seenHostSubsets[service][s.Name] = destinationRulesName }]:
    the inner map is looked up and written through; a missing inner map is
    nil, and a write to it panics. *)
Definition registerSubsets (seenHostSubsets : CollisionIndex)
    (service destinationRulesName : string) (foundSubsets : list subset)
  : option CollisionIndex :=
  foldM
    (λ (seenHostSubsets : CollisionIndex) s,
       inner ← seenHostSubsets !! service;
       Some (<[service := <[Name s := destinationRulesName]> inner]>
               seenHostSubsets))
    seenHostSubsets foundSubsets.

Definition Check_body (st : IstioValidations * CollisionIndex)
    (dr : IstioObject) : option (IstioValidations * CollisionIndex) :=
  let '(validations, seenHostSubsets) := st in
  match GetSpec dr !! "host" with
  | Some host =>
      let destinationRulesName := kubernetes.Name (GetObjectMeta dr) in
      match host with
      | VString dHost =>
          fqdn ← FormatHostnameForPrefixSearch dHost
                   (kubernetes.Namespace (GetObjectMeta dr))
                   (ClusterName (GetObjectMeta dr));
          if enablesNonLocalmTLS dr fqdn then Some st
          else
            let foundSubsets := extractSubsets dr destinationRulesName in
            let validations :=
              if decide (Service fqdn = "*") then
                foldl
                  (λ validations (kh : string * gmap string string),
                     checkCollisions validations destinationRulesName
                       foundSubsets kh.2)
                  validations (map_to_list seenHostSubsets)
              else validations in
            let validations :=
              match seenHostSubsets !! "*" with
              | Some previous =>
                  checkCollisions validations destinationRulesName
                    foundSubsets previous
              | None => validations
              end in
            let validations :=
              match seenHostSubsets !! Service fqdn with
              | Some previous =>
                  checkCollisions validations destinationRulesName
                    foundSubsets previous
              | None => validations
              end in
            let seenHostSubsets :=
              match seenHostSubsets !! Service fqdn with
              | Some _ => seenHostSubsets
              | None => <[Service fqdn := ∅]> seenHostSubsets
              end in
            seenHostSubsets ← registerSubsets seenHostSubsets (Service fqdn)
                                destinationRulesName foundSubsets;
            Some (validations, seenHostSubsets)
      | _ => Some st
      end
  | None => Some st
  end.

Definition Check (m : MultiMatchChecker) : option IstioValidations :=
  fst <$> foldM Check_body (∅, ∅) (DestinationRules m).

(** ** Any iteration order

    The same program, with every [range] over a map free to visit the
    entries in any order.  [ranges m order] says that [order] is one of the
    orders in which [range m] may visit [m]. *)
Definition ranges {A : Type} (m : gmap string A) (order : list (string * A))
  : Prop :=
  order ≡ₚ map_to_list m.

Inductive collisions_run (validations : IstioValidations) (n : string)
    (foundSubsets : list subset) (existing : gmap string string)
  : IstioValidations → Prop :=
  | collisions_run_order order :
      ranges existing order →
      collisions_run validations n foundSubsets existing
        (checkCollisions_in order validations n foundSubsets existing).

(** The loop [for _, h := range seenHostSubsets { checkCollisions(..., h) }]
    once the order of the hosts is chosen. *)
Inductive hosts_run (n : string) (foundSubsets : list subset)
  : list (string * gmap string string) →
    IstioValidations → IstioValidations → Prop :=
  | hosts_run_nil validations :
      hosts_run n foundSubsets [] validations validations
  | hosts_run_cons kh hosts validations validations' validations'' :
      collisions_run validations n foundSubsets kh.2 validations' →
      hosts_run n foundSubsets hosts validations' validations'' →
      hosts_run n foundSubsets (kh :: hosts) validations validations''.

Definition found_run (previous : option (gmap string string)) (n : string)
    (foundSubsets : list subset) (validations validations' : IstioValidations)
  : Prop :=
  match previous with
  | Some previous => collisions_run validations n foundSubsets previous validations'
  | None => validations' = validations
  end.

Inductive body_run
  : IstioValidations * CollisionIndex → IstioObject →
    IstioValidations * CollisionIndex → Prop :=
  | body_run_no_host st dr :
      (∀ dHost, GetSpec dr !! "host" ≠ Some (VString dHost)) →
      body_run st dr st
  | body_run_exempt st dr dHost fqdn :
      GetSpec dr !! "host" = Some (VString dHost) →
      FormatHostnameForPrefixSearch dHost
        (kubernetes.Namespace (GetObjectMeta dr))
        (ClusterName (GetObjectMeta dr)) = Some fqdn →
      enablesNonLocalmTLS dr fqdn = true →
      body_run st dr st
  | body_run_checked validations seenHostSubsets dr dHost fqdn
      validations1 validations2 validations3 seenHostSubsets' :
      let n := kubernetes.Name (GetObjectMeta dr) in
      let foundSubsets := extractSubsets dr n in
      GetSpec dr !! "host" = Some (VString dHost) →
      FormatHostnameForPrefixSearch dHost
        (kubernetes.Namespace (GetObjectMeta dr))
        (ClusterName (GetObjectMeta dr)) = Some fqdn →
      enablesNonLocalmTLS dr fqdn = false →
      (if decide (Service fqdn = "*") then
         ∃ hosts, ranges seenHostSubsets hosts
                  ∧ hosts_run n foundSubsets hosts validations validations1
       else validations1 = validations) →
      found_run (seenHostSubsets !! "*") n foundSubsets
        validations1 validations2 →
      found_run (seenHostSubsets !! Service fqdn) n foundSubsets
        validations2 validations3 →
      registerSubsets
        (match seenHostSubsets !! Service fqdn with
         | Some _ => seenHostSubsets
         | None => <[Service fqdn := ∅]> seenHostSubsets
         end) (Service fqdn) n foundSubsets = Some seenHostSubsets' →
      body_run (validations, seenHostSubsets) dr
        (validations3, seenHostSubsets').

Inductive rules_run
  : IstioValidations * CollisionIndex → list IstioObject →
    IstioValidations * CollisionIndex → Prop :=
  | rules_run_nil st : rules_run st [] st
  | rules_run_cons st st' st'' dr drs :
      body_run st dr st' → rules_run st' drs st'' →
      rules_run st (dr :: drs) st''.

Definition Check_run (m : MultiMatchChecker) (validations : IstioValidations)
  : Prop :=
  ∃ seenHostSubsets,
    rules_run (∅, ∅) (DestinationRules m) (validations, seenHostSubsets).

(** ** Notions used to state the properties *)

(** The name an entry of the subset list declares: the entry is a map whose
    [name] is a string. *)
Definition declaredName (se : value) : option string :=
  match se with
  | VMap element =>
      match element !! "name" with
      | Some (VString n) => Some n
      | _ => None
      end
  | _ => None
  end.

(** The subset [extractSubsets] returns for an object without a subset
    list. *)
Definition sentinel (owner : string) : subset :=
  {| Name := "~"; RuleName := owner |}.

(** The key and the validation [addError] builds for the name [n]. *)
Definition multimatchKey (n : string) : IstioValidationKey :=
  {| KeyObjectType := DestinationRulesCheckerType; KeyName := n |}.

Definition multimatchValidation (n : string) : IstioValidation :=
  {| models.Name := n;
     ObjectType := DestinationRulesCheckerType;
     Valid := true;
     Checks := [Build "destinationrules.multimatch" "spec/host"] |}.

(** The object named [n] appears in the findings. *)
Definition flagged (validations : IstioValidations) (n : string) : Prop :=
  is_Some (validations !! multimatchKey n).

(** The findings extended by the validations of [names]; a key that is
    present keeps its validation. *)
Definition withFindings (validations : IstioValidations) (names : gset string)
  : IstioValidations :=
  validations
  ∪ set_to_map (λ n, (multimatchKey n, multimatchValidation n)) names.

(** The current object declares no subsets: its subsets are the single
    sentinel. *)
Definition singleSentinel (foundSubsets : list subset) : bool :=
  bool_decide (length foundSubsets = 1%nat)
  && bool_decide (Name <$> foundSubsets !! 0%nat = Some "~").

(** The names the loop [for _, v := range existing { addError(n, v) }]
    reports: none when [existing] is empty, else [n] and every owner. *)
Definition rangedOwners (n : string) (existing : gmap string string)
  : gset string :=
  if decide (existing = ∅) then ∅ else {[n]} ∪ map_img existing.

(** The names [checkCollisions] reports for the object [n] with subsets
    [foundSubsets] against the subsets [existing] of one service. *)
Definition collisionNames (n : string) (foundSubsets : list subset)
    (existing : gmap string string) : gset string :=
  (if singleSentinel foundSubsets then rangedOwners n existing else ∅)
  ∪ match existing !! "~" with
    | Some ruleName => {[n; ruleName]}
    | None => ∅
    end
  ∪ ⋃ ((λ s, match existing !! Name s with
             | Some ruleName => {[n; ruleName]}
             | None => ∅
             end) <$> foundSubsets).

(** The subsets of one service after the object [n] has claimed
    [foundSubsets]. *)
Definition claimed (n : string) (foundSubsets : list subset)
    (inner : gmap string string) : gmap string string :=
  foldl (λ inner s, <[Name s := n]> inner) inner foundSubsets.

(** The object is checked and registered: its host is a string and the
    exemption filter rejects it.  The result is the service of its
    normalised host and its subsets. *)
Definition checked (dr : IstioObject) : option (string * list subset) :=
  match GetSpec dr !! "host" with
  | Some (VString dHost) =>
      fqdn ← FormatHostnameForPrefixSearch dHost
               (kubernetes.Namespace (GetObjectMeta dr))
               (ClusterName (GetObjectMeta dr));
      if enablesNonLocalmTLS dr fqdn then None
      else Some (Service fqdn,
                 extractSubsets dr (kubernetes.Name (GetObjectMeta dr)))
  | _ => None
  end.

(** The names one object adds to the findings: the collisions with the
    subsets of every service when its own service is "*", with those of
    the service "*", and with those of its own service. *)
Definition bodyNames (seenHostSubsets : CollisionIndex) (service n : string)
    (foundSubsets : list subset) : gset string :=
  (if decide (service = "*") then
     ⋃ ((λ kh : string * gmap string string,
           collisionNames n foundSubsets kh.2)
          <$> map_to_list seenHostSubsets)
   else ∅)
  ∪ match seenHostSubsets !! "*" with
    | Some previous => collisionNames n foundSubsets previous
    | None => ∅
    end
  ∪ match seenHostSubsets !! service with
    | Some previous => collisionNames n foundSubsets previous
    | None => ∅
    end.

(** What [Check_body] computes, see [Check_body_step]: a skipped object
    leaves the state; a checked one adds [bodyNames] to the findings and
    claims its subsets under its service. *)
Definition step (st : IstioValidations * CollisionIndex) (dr : IstioObject)
  : IstioValidations * CollisionIndex :=
  match checked dr with
  | None => st
  | Some (service, foundSubsets) =>
      let n := kubernetes.Name (GetObjectMeta dr) in
      (withFindings st.1 (bodyNames st.2 service n foundSubsets),
       <[service := claimed n foundSubsets (default ∅ (st.2 !! service))]>
         st.2)
  end.

(** The identity of an object. *)
Abbreviation nameOf dr := (kubernetes.Name (GetObjectMeta dr)).

(** Every stored validation is the one [addError] builds for its key. *)
Definition wellFormed (validations : IstioValidations) : Prop :=
  ∀ k x, validations !! k = Some x →
         k = multimatchKey (KeyName k) ∧ x = multimatchValidation (KeyName k).

(** The subset [x] of [service] was claimed by [n], and [n] still owns it or
    has been flagged since. *)
Definition claimKept (service x n : string)
    (st : IstioValidations * CollisionIndex) : Prop :=
  ∃ inner r, st.2 !! service = Some inner ∧ inner !! x = Some r
             ∧ (r = n ∨ flagged st.1 n).

(** *** Example objects

    [rule name host attributes] is the object [name] of the namespace
    "bookinfo" whose spec holds [host] and [attributes]. *)
Definition named (n : string) : value := VMap {[ "name" := VString n ]}.

Definition subsetsOf (names : list string) : gmap string value :=
  {[ "subsets" := VSlice (named <$> names) ]}.

Definition mutualTLS : gmap string value :=
  {[ "trafficPolicy" :=
       VMap {[ "tls" := VMap {[ "mode" := VString "ISTIO_MUTUAL" ]} ]} ]}.

Definition rule (name host : string) (attributes : gmap string value)
  : IstioObject :=
  {| GetSpec := <[ "host" := VString host ]> attributes;
     GetObjectMeta := {| kubernetes.Name := name;
                         kubernetes.Namespace := "bookinfo";
                         ClusterName := "" |} |}.

(** The subsets named [names], owned by [owner]. *)
Definition subsetsNamed (owner : string) (names : list string) : list subset :=
  (λ n, {| Name := n; RuleName := owner |}) <$> names.

(** The number of entries of the findings stored for the identity [n]. *)
Definition occurrences (validations : IstioValidations) (n : string) : nat :=
  length (filter (λ kv : IstioValidationKey * IstioValidation,
                    KeyName kv.1 = n)
            (map_to_list validations)).

(** *** Notions for the further properties *)

(** The string holds no dot, so it is one segment of a host name. *)
Definition noDot (s : string) : Prop :=
  "."%char ∉ list_ascii_of_string s.

(** An object on [service2] is checked against the subsets registered for
    [service1]: every service when [service2] is "*", else the service "*"
    and its own service. *)
Definition compatible (service1 service2 : string) : Prop :=
  service2 = "*" ∨ service1 = "*" ∨ service1 = service2.

(** The subsets [later] of an object collide with the subsets [earlier]
    registered before it: [later] is the single sentinel and [earlier] is
    not empty, or [earlier] holds the sentinel name, or the two share a
    name. *)
Definition overlaps (earlier later : list subset) : Prop :=
  (singleSentinel later = true ∧ earlier ≠ [])
  ∨ "~" ∈ Name <$> earlier
  ∨ ∃ x, x ∈ Name <$> earlier ∧ x ∈ Name <$> later.

(** The services of the checked objects of the input, in input order. *)
Definition services (drs : list IstioObject) : list string :=
  omap (λ dr, fst <$> checked dr) drs.

(** * Properties *)

(** ** The host normaliser *)

Lemma Split_nonempty (s : string) (sep : ascii) : Split s sep ≠ [].
Proof.
  destruct s as [|c rest]; simpl; [done|].
  case_decide; [done|]. by destruct (Split rest sep).
Qed.

(** Joining the segments with the separator gives the string back, so
    [Split] cuts at the separators and nowhere else. *)
Lemma Join_Split (s : string) (sep : ascii) :
  Join (Split s sep) (String sep EmptyString) = s.
Proof.
  induction s as [|c rest IH]; simpl; [done|].
  pose proof (Split_nonempty rest sep) as Hne.
  case_decide as Hc.
  - subst c. destruct (Split rest sep) as [|p ps]; [done|].
    simpl in *. by rewrite IH.
  - destruct (Split rest sep) as [|p ps]; [done|].
    destruct ps as [|q qs]; simpl in *; by rewrite <- IH.
Qed.

Lemma Split_no_sep (s : string) (sep : ascii) (part : string) :
  part ∈ Split s sep → ∀ c, c ∈ list_ascii_of_string part → c ≠ sep.
Proof.
  revert part. induction s as [|a rest IH]; simpl; intros part Hin c Hc.
  - apply list_elem_of_singleton in Hin. subst part. by inversion Hc.
  - case_decide as Ha.
    + apply elem_of_cons in Hin as [->|Hin]; [by inversion Hc|].
      by eapply IH.
    + pose proof (Split_nonempty rest sep) as Hne.
      destruct (Split rest sep) as [|p ps]; [done|].
      apply elem_of_cons in Hin as [->|Hin].
      * simpl in Hc. apply elem_of_cons in Hc as [->|Hc]; [done|].
        eapply IH; [|done]. by left.
      * eapply IH; [|done]. by right.
Qed.

Lemma FormatHostnameForPrefixSearch_eq (hostName namespace clusterName : string) :
  let domainParts := Split hostName "."%char in
  FormatHostnameForPrefixSearch hostName namespace clusterName
  = Some {| Service := default "" (domainParts !! 0%nat);
            Namespace :=
              (let ns := default "" (domainParts !! 1%nat) in
               if decide (ns = "") then namespace else ns);
            Cluster :=
              (let cluster := Join (drop 2 domainParts) "." in
               if decide (cluster = "") then clusterName else cluster) |}.
Proof.
  intros domainParts. unfold FormatHostnameForPrefixSearch.
  fold domainParts.
  pose proof (Split_nonempty hostName "."%char) as Hne. fold domainParts in Hne.
  destruct domainParts as [|service [|ns [|c rest]]]; [done|..]; simpl;
    repeat (case_decide; simpl in * ); try done; try lia.
Qed.

Lemma FormatHostnameForPrefixSearch_total (hostName namespace clusterName : string) :
  is_Some (FormatHostnameForPrefixSearch hostName namespace clusterName).
Proof. rewrite FormatHostnameForPrefixSearch_eq. eauto. Qed.

(** C8.  The host normaliser returns a host for every input string.  The
    service is the first dot-segment of the host name; the namespace is the
    second segment, or the owner's namespace when that segment is missing or
    empty; the cluster is the remaining segments joined with ".", or the
    owner's cluster when nothing remains.  The two equations of the
    specification hold. *)
Theorem host_normalizer_total_and_segments :
  (∀ hostName namespace clusterName,
     let domainParts := Split hostName "."%char in
     domainParts ≠ []
     ∧ Join domainParts "." = hostName
     ∧ FormatHostnameForPrefixSearch hostName namespace clusterName
       = Some {| Service := default "" (domainParts !! 0%nat);
                 Namespace :=
                   (let ns := default "" (domainParts !! 1%nat) in
                    if decide (ns = "") then namespace else ns);
                 Cluster :=
                   (let cluster := Join (drop 2 domainParts) "." in
                    if decide (cluster = "") then clusterName else cluster) |})
  ∧ FormatHostnameForPrefixSearch
      "reviews.bookinfo.svc.cluster.local" "default" ""
    = Some {| Service := "reviews"; Namespace := "bookinfo";
              Cluster := "svc.cluster.local" |}
  ∧ FormatHostnameForPrefixSearch "reviews" "bookinfo" "east"
    = Some {| Service := "reviews"; Namespace := "bookinfo";
              Cluster := "east" |}.
Proof.
  split; [|split; reflexivity].
  intros hostName namespace clusterName domainParts.
  split; [apply Split_nonempty|].
  split; [apply (Join_Split hostName "."%char)|].
  apply FormatHostnameForPrefixSearch_eq.
Qed.

(** ** The exemption filter *)

(** C5.  The exemption filter answers [true] exactly when the service of the
    normalised host is "*" and the object's [trafficPolicy] is a map whose
    [tls] is a map whose [mode] is the string "ISTIO_MUTUAL".  It is a total
    function to [bool]: a missing or mistyped level of the chain gives
    [false], never an error. *)
Theorem enablesNonLocalmTLS_true_iff (dr : IstioObject) (fdqn : Host) :
  enablesNonLocalmTLS dr fdqn = true
  ↔ Service fdqn = "*"
    ∧ ∃ trafficPolicy tls,
        GetSpec dr !! "trafficPolicy" = Some (VMap trafficPolicy)
        ∧ trafficPolicy !! "tls" = Some (VMap tls)
        ∧ tls !! "mode" = Some (VString "ISTIO_MUTUAL").
Proof.
  unfold enablesNonLocalmTLS. split.
  - case_decide as Hs; [done|].
    destruct (GetSpec dr !! "trafficPolicy") as [[| | | | |tp]|]; try done.
    destruct (tp !! "tls") as [[| | | | |tls]|] eqn:Htls; try done.
    destruct (tls !! "mode") as [[| | |mode| |]|] eqn:Hmode; try done.
    intros ->%bool_decide_eq_true. eauto 10.
  - intros (Hs & tp & tls & -> & Htls & Hmode).
    rewrite decide_False by (by intros []).
    rewrite Htls, Hmode. by apply bool_decide_eq_true.
Qed.

Lemma enablesNonLocalmTLS_concrete (dr : IstioObject) (fdqn : Host) :
  Service fdqn ≠ "*" → enablesNonLocalmTLS dr fdqn = false.
Proof. intros Hs. unfold enablesNonLocalmTLS. by rewrite decide_True. Qed.

(** ** The subset extractor *)

Lemma extractSubsets_loop (owner : string) (subsetSlice : list value)
    (foundSubsets : list subset) :
  foldl
    (λ (foundSubsets : list subset) se,
       match se with
       | VMap element =>
           match element !! "name" with
           | Some (VString n) =>
               (foundSubsets ++ [{| Name := n; RuleName := owner |}])%list
           | _ => foundSubsets
           end
       | _ => foundSubsets
       end)
    foundSubsets subsetSlice
  = (foundSubsets
     ++ ((λ n, {| Name := n; RuleName := owner |})
           <$> omap declaredName subsetSlice))%list.
Proof.
  revert foundSubsets.
  induction subsetSlice as [|se l IH]; intros acc; simpl.
  - by rewrite app_nil_r.
  - rewrite IH. unfold declaredName at 2.
    destruct se as [| | | | |element]; try done.
    destruct (element !! "name") as [[| | |n| |]|]; try done.
    simpl. by rewrite <- app_assoc.
Qed.

Lemma extractSubsets_slice (dr : IstioObject) (owner : string)
    (subsetSlice : list value) :
  GetSpec dr !! "subsets" = Some (VSlice subsetSlice) →
  extractSubsets dr owner
  = (λ n, {| Name := n; RuleName := owner |}) <$> omap declaredName subsetSlice.
Proof.
  intros Hs. unfold extractSubsets. rewrite Hs.
  by rewrite extractSubsets_loop.
Qed.

Lemma extractSubsets_no_slice (dr : IstioObject) (owner : string) :
  (∀ subsetSlice, GetSpec dr !! "subsets" ≠ Some (VSlice subsetSlice)) →
  extractSubsets dr owner = [sentinel owner].
Proof.
  intros Hs. unfold extractSubsets.
  destruct (GetSpec dr !! "subsets") as [[| | | |l|]|]; try done.
  by destruct (Hs l).
Qed.

Lemma extractSubsets_RuleName (dr : IstioObject) (owner : string) (s : subset) :
  s ∈ extractSubsets dr owner → RuleName s = owner.
Proof.
  destruct (GetSpec dr !! "subsets") as [v|] eqn:Hv.
  2:{ rewrite extractSubsets_no_slice by (intros ?; congruence).
      by intros ->%list_elem_of_singleton. }
  destruct v as [| | | |l|];
    try (rewrite extractSubsets_no_slice by (intros ?; congruence);
         by intros ->%list_elem_of_singleton).
  rewrite (extractSubsets_slice _ _ l) by done.
  by intros (n & -> & _)%list_elem_of_fmap.
Qed.

(** ** Findings

    [addError] stores, under the key of a name, a validation that depends
    on the name alone, and leaves a key that is present untouched.  So
    every sequence of [addError] calls extends the map by a set of names,
    whatever the order of the calls. *)
#[global] Instance multimatchKey_inj : Inj (=) (=) multimatchKey.
Proof. intros n1 n2 H. by injection H. Qed.

Lemma lookup_findings (names : gset string) (k : IstioValidationKey)
    (x : IstioValidation) :
  (set_to_map (λ n, (multimatchKey n, multimatchValidation n)) names
     : IstioValidations) !! k = Some x
  ↔ ∃ n, n ∈ names ∧ k = multimatchKey n ∧ x = multimatchValidation n.
Proof.
  rewrite lookup_set_to_map.
  - split; intros (n & Hn & Hx); exists n; (split; [done|]).
    + by injection Hx as <- <-.
    + by destruct Hx as [-> ->].
  - intros n1 n2 _ _ H. simpl in H. by apply (inj multimatchKey).
Qed.

Lemma lookup_withFindings_Some (validations : IstioValidations)
    (names : gset string) (k : IstioValidationKey) (x : IstioValidation) :
  withFindings validations names !! k = Some x
  ↔ validations !! k = Some x
    ∨ (validations !! k = None
       ∧ ∃ n, n ∈ names ∧ k = multimatchKey n ∧ x = multimatchValidation n).
Proof.
  unfold withFindings. rewrite lookup_union_Some_raw.
  by rewrite lookup_findings.
Qed.

Lemma withFindings_empty (validations : IstioValidations) :
  withFindings validations ∅ = validations.
Proof.
  apply map_eq; intros k. apply option_eq; intros x.
  rewrite lookup_withFindings_Some. split; [|by left].
  intros [?|[_ (n & []%not_elem_of_empty & _)]]; done.
Qed.

Lemma withFindings_union (validations : IstioValidations)
    (names1 names2 : gset string) :
  withFindings (withFindings validations names1) names2
  = withFindings validations (names1 ∪ names2).
Proof.
  apply map_eq; intros k. apply option_eq; intros x.
  rewrite !lookup_withFindings_Some. split.
  - intros [[?|[? (n & ? & ? & ?)]]|[Hnone (n & ? & ? & ?)]].
    + by left.
    + right. split; [done|]. exists n. set_solver.
    + right.
      destruct (validations !! k) as [y|] eqn:Hk.
      { assert (withFindings validations names1 !! k = Some y) as Hy
          by (apply lookup_withFindings_Some; by left).
        congruence. }
      split; [done|]. exists n. set_solver.
  - intros [?|[Hnone (n & [Hn|Hn]%elem_of_union & -> & ->)]].
    + left. by left.
    + left. right. split; [done|]. by exists n.
    + destruct (withFindings validations names1 !! multimatchKey n)
        as [y|] eqn:Hy.
      * left. apply lookup_withFindings_Some in Hy as Hy'.
        destruct Hy' as [?|[_ (n' & ? & <-%(inj multimatchKey) & ->)]];
          [congruence|].
        right. split; [done|]. by exists n.
      * right. split; [done|]. by exists n.
Qed.

Lemma flagged_withFindings (validations : IstioValidations)
    (names : gset string) (n : string) :
  flagged (withFindings validations names) n ↔ flagged validations n ∨ n ∈ names.
Proof.
  unfold flagged. split.
  - intros [x Hx]. apply lookup_withFindings_Some in Hx
      as [?|[_ (n' & ? & ->%(inj multimatchKey) & _)]]; eauto.
  - intros [[x Hx]|Hn].
    + exists x. apply lookup_withFindings_Some. by left.
    + destruct (validations !! multimatchKey n) as [x|] eqn:Hx.
      * exists x. apply lookup_withFindings_Some. by left.
      * exists (multimatchValidation n). apply lookup_withFindings_Some.
        right. split; [done|]. by exists n.
Qed.

Lemma addError_withFindings (validations : IstioValidations)
    (destinationRuleNames : list string) :
  addError validations destinationRuleNames
  = withFindings validations (list_to_set destinationRuleNames).
Proof.
  unfold addError. revert validations.
  induction destinationRuleNames as [|n l IH]; intros validations; simpl.
  - by rewrite withFindings_empty.
  - rewrite IH, <- withFindings_union. f_equal.
    fold (multimatchKey n). fold (multimatchValidation n).
    apply map_eq; intros k. apply option_eq; intros x.
    rewrite lookup_withFindings_Some.
    destruct (validations !! multimatchKey n) as [y|] eqn:Hy.
    + split; [by left|]. intros [?|[? (n' & ->%elem_of_singleton & -> & _)]];
        [done|congruence].
    + unfold MergeValidations. rewrite lookup_union_Some_raw.
      rewrite lookup_singleton_Some. split.
      * intros [?|[? [<- <-]]]; [by left|]. right. split; [done|].
        exists n. set_solver.
      * intros [?|[? (n' & ->%elem_of_singleton & -> & ->)]]; [by left|].
        by right.
Qed.

Lemma foldl_withFindings {A : Type}
    (step : IstioValidations → A → IstioValidations) (names : A → gset string)
    (validations : IstioValidations) (l : list A) :
  (∀ validations a, step validations a = withFindings validations (names a)) →
  foldl step validations l = withFindings validations (⋃ (names <$> l)).
Proof.
  intros Hstep. revert validations.
  induction l as [|a l IH]; intros validations; simpl.
  - by rewrite withFindings_empty.
  - by rewrite IH, Hstep, withFindings_union.
Qed.

(** ** The collision check *)

Lemma range_owners (n : string) (existing : gmap string string)
    (order : list (string * string)) :
  ranges existing order →
  ⋃ ((λ kv : string * string, list_to_set [n; kv.2]) <$> order)
  = rangedOwners n existing.
Proof.
  unfold ranges, rangedOwners. intros Hperm. apply set_eq; intros x.
  rewrite elem_of_union_list. split.
  - intros (X & ([k r] & -> & Hkr)%list_elem_of_fmap & Hx).
    rewrite Hperm in Hkr. apply elem_of_map_to_list in Hkr.
    rewrite decide_False by (intros ->; by rewrite lookup_empty in Hkr).
    rewrite list_to_set_cons, list_to_set_singleton in Hx.
    apply elem_of_union in Hx as [Hx%elem_of_singleton|Hx%elem_of_singleton].
    + by apply elem_of_union_l, elem_of_singleton.
    + apply elem_of_union_r, elem_of_map_img. exists k. by rewrite Hx.
  - case_decide as He; [by intros ?%not_elem_of_empty|].
    apply map_choose in He as (k0 & r0 & Hk0).
    intros [Hx%elem_of_singleton|(k & Hk)%elem_of_map_img]%elem_of_union.
    + exists (list_to_set [n; r0]). split.
      * apply list_elem_of_fmap. exists (k0, r0). split; [done|].
        rewrite Hperm. by apply elem_of_map_to_list.
      * rewrite Hx. set_solver.
    + exists (list_to_set [n; x]). split; [|set_solver].
      apply list_elem_of_fmap. exists (k, x). split; [done|].
      rewrite Hperm. by apply elem_of_map_to_list.
Qed.

(** Whatever the order in which [existing] is visited, the collision check
    extends the findings by [collisionNames]. *)
Lemma checkCollisions_in_names (order : list (string * string))
    (validations : IstioValidations) (n : string) (foundSubsets : list subset)
    (existing : gmap string string) :
  ranges existing order →
  checkCollisions_in order validations n foundSubsets existing
  = withFindings validations (collisionNames n foundSubsets existing).
Proof.
  intros Horder. unfold checkCollisions_in, collisionNames.
  fold (singleSentinel foundSubsets).
  rewrite <- !withFindings_union.
  rewrite (foldl_withFindings _
             (λ s, match existing !! Name s with
                   | Some ruleName => {[n; ruleName]}
                   | None => ∅
                   end)).
  2:{ intros v s. destruct (existing !! Name s) as [r|].
      - rewrite addError_withFindings. f_equal. set_solver.
      - by rewrite withFindings_empty. }
  f_equal.
  assert (∀ v : IstioValidations,
            match existing !! "~" with
            | Some ruleName => addError v [n; ruleName]
            | None => v
            end
            = withFindings v match existing !! "~" with
                             | Some ruleName => {[n; ruleName]}
                             | None => ∅
                             end) as ->.
  { intros v. destruct (existing !! "~") as [r|].
    - rewrite addError_withFindings. f_equal. set_solver.
    - by rewrite withFindings_empty. }
  f_equal.
  destruct (singleSentinel foundSubsets).
  - rewrite (foldl_withFindings _ (λ kv, list_to_set [n; kv.2])).
    + by rewrite (range_owners n existing order).
    + intros v kv. apply addError_withFindings.
  - by rewrite withFindings_empty.
Qed.

Lemma checkCollisions_names (validations : IstioValidations) (n : string)
    (foundSubsets : list subset) (existing : gmap string string) :
  checkCollisions validations n foundSubsets existing
  = withFindings validations (collisionNames n foundSubsets existing).
Proof. apply checkCollisions_in_names. by unfold ranges. Qed.

Lemma elem_of_collisionNames (n : string) (foundSubsets : list subset)
    (existing : gmap string string) (x : string) :
  x ∈ collisionNames n foundSubsets existing
  ↔ (singleSentinel foundSubsets = true
     ∧ ∃ k r, existing !! k = Some r ∧ (x = n ∨ x = r))
    ∨ (∃ r, existing !! "~" = Some r ∧ (x = n ∨ x = r))
    ∨ (∃ s r, s ∈ foundSubsets ∧ existing !! Name s = Some r
              ∧ (x = n ∨ x = r)).
Proof.
  unfold collisionNames, rangedOwners.
  rewrite !elem_of_union, elem_of_union_list.
  split.
  - intros [[Hx|Hx]|(X & (s & -> & Hs)%list_elem_of_fmap & Hx)].
    + left. destruct (singleSentinel foundSubsets); [|set_solver].
      split; [done|]. case_decide as He; [set_solver|].
      apply map_choose in He as (k0 & r0 & Hk0).
      apply elem_of_union in Hx
        as [->%elem_of_singleton|(k & Hk)%elem_of_map_img]; eauto 10.
    + right; left. destruct (existing !! "~") as [r|]; [|set_solver].
      exists r. set_solver.
    + right; right. destruct (existing !! Name s) as [r|] eqn:Hr;
        [|set_solver].
      exists s, r. set_solver.
  - intros [[-> (k & r & Hk & Hx)]|[(r & -> & Hx)|(s & r & Hs & Hr & Hx)]].
    + left; left. rewrite decide_False
        by (intros ->; by rewrite lookup_empty in Hk).
      destruct Hx as [->| ->]; [set_solver|].
      apply elem_of_union_r, elem_of_map_img. eauto.
    + left; right. set_solver.
    + right. exists {[n; r]}. split; [|set_solver].
      apply list_elem_of_fmap. exists s. by rewrite Hr.
Qed.

(** ** One object of the pass *)

Lemma registerSubsets_claimed (seenHostSubsets : CollisionIndex)
    (service n : string) (foundSubsets : list subset)
    (inner : gmap string string) :
  seenHostSubsets !! service = Some inner →
  registerSubsets seenHostSubsets service n foundSubsets
  = Some (<[service := claimed n foundSubsets inner]> seenHostSubsets).
Proof.
  unfold registerSubsets, claimed.
  revert seenHostSubsets inner.
  induction foundSubsets as [|s fs IH]; intros seen inner Hin; simpl.
  - by rewrite insert_id.
  - rewrite Hin. simpl.
    rewrite (IH _ (<[Name s := n]> inner)) by apply lookup_insert_eq.
    by rewrite insert_insert_eq.
Qed.

Lemma lookup_claimed (n : string) (foundSubsets : list subset)
    (inner : gmap string string) (x : string) :
  claimed n foundSubsets inner !! x
  = if decide (x ∈ Name <$> foundSubsets) then Some n else inner !! x.
Proof.
  unfold claimed. revert inner.
  induction foundSubsets as [|s fs IH]; intros inner; [done|].
  cbn [foldl]. rewrite IH, fmap_cons.
  - destruct (decide (x ∈ Name <$> fs)) as [Hx|Hx].
    + rewrite decide_True; [done|]. by right.
    + destruct (decide (x = Name s)) as [->|Hne].
      * rewrite decide_True by (by left). apply lookup_insert_eq.
      * rewrite decide_False
          by (by intros [?|?]%elem_of_cons).
        by apply lookup_insert_ne.
Qed.

Lemma Check_body_step (st : IstioValidations * CollisionIndex)
    (dr : IstioObject) :
  Check_body st dr = Some (step st dr).
Proof.
  destruct st as [validations seen]. unfold Check_body, step, checked.
  destruct (GetSpec dr !! "host") as [[| | |dHost| |]|]; try done.
  destruct (FormatHostnameForPrefixSearch_total dHost
              (kubernetes.Namespace (GetObjectMeta dr))
              (ClusterName (GetObjectMeta dr))) as [fqdn ->].
  simpl. destruct (enablesNonLocalmTLS dr fqdn); [done|].
  set (n := kubernetes.Name (GetObjectMeta dr)).
  set (fs := extractSubsets dr n).
  rewrite (registerSubsets_claimed _ _ _ _
             (default ∅ (seen !! Service fqdn))).
  2:{ destruct (seen !! Service fqdn) as [inner|] eqn:Hin; simpl.
      - done.
      - apply lookup_insert_eq. }
  simpl. f_equal. f_equal.
  - unfold bodyNames. rewrite <- !withFindings_union.
    assert (∀ (o : option (gmap string string)) (v : IstioValidations),
              match o with
              | Some previous => checkCollisions v n fs previous
              | None => v
              end
              = withFindings v match o with
                               | Some previous => collisionNames n fs previous
                               | None => ∅
                               end) as Hfound.
    { intros [previous|] v.
      - apply checkCollisions_names.
      - by rewrite withFindings_empty. }
    rewrite !Hfound. do 2 f_equal.
    case_decide.
    + apply foldl_withFindings. intros v kh. apply checkCollisions_names.
    + by rewrite withFindings_empty.
  - destruct (seen !! Service fqdn) as [inner|]; simpl; [done|].
    by rewrite insert_insert_eq.
Qed.

Lemma foldM_Check_body (st : IstioValidations * CollisionIndex)
    (drs : list IstioObject) :
  foldM Check_body st drs = Some (foldl step st drs).
Proof.
  revert st. induction drs as [|dr drs IH]; intros st; simpl; [done|].
  rewrite Check_body_step. simpl. apply IH.
Qed.

(** [Check] returns, and its result is the left fold of [step]. *)
Lemma Check_steps (m : MultiMatchChecker) :
  Check m = Some (foldl step (∅, ∅) (DestinationRules m)).1.
Proof. unfold Check. by rewrite foldM_Check_body. Qed.

Lemma elem_of_bodyNames (seenHostSubsets : CollisionIndex)
    (service n : string) (foundSubsets : list subset) (x : string) :
  x ∈ bodyNames seenHostSubsets service n foundSubsets
  ↔ ∃ k existing,
      seenHostSubsets !! k = Some existing
      ∧ (service = "*" ∨ k = "*" ∨ k = service)
      ∧ x ∈ collisionNames n foundSubsets existing.
Proof.
  unfold bodyNames. rewrite !elem_of_union. split.
  - intros [[Hx|Hx]|Hx].
    + case_decide as Hs; [|by apply not_elem_of_empty in Hx].
      apply elem_of_union_list in Hx
        as (X & ([k ex] & -> & Hk%elem_of_map_to_list)%list_elem_of_fmap & Hx).
      exists k, ex. eauto.
    + destruct (seenHostSubsets !! "*") as [ex|] eqn:Hk;
        [|by apply not_elem_of_empty in Hx].
      exists "*", ex. eauto.
    + destruct (seenHostSubsets !! service) as [ex|] eqn:Hk;
        [|by apply not_elem_of_empty in Hx].
      exists service, ex. eauto.
  - intros (k & ex & Hk & [Hs|[-> | ->]] & Hx).
    + left; left. rewrite decide_True by done.
      apply elem_of_union_list. exists (collisionNames n foundSubsets ex).
      split; [|done]. apply list_elem_of_fmap. exists (k, ex).
      split; [done|]. by apply elem_of_map_to_list.
    + left; right. by rewrite Hk.
    + right. by rewrite Hk.
Qed.

(** ** Every iteration order gives the same result *)

Lemma collisions_run_names (validations validations' : IstioValidations)
    (n : string) (foundSubsets : list subset) (existing : gmap string string) :
  collisions_run validations n foundSubsets existing validations' →
  validations' = withFindings validations (collisionNames n foundSubsets existing).
Proof. intros [order Horder]. by apply checkCollisions_in_names. Qed.

Lemma hosts_run_names (n : string) (foundSubsets : list subset)
    (hosts : list (string * gmap string string))
    (validations validations' : IstioValidations) :
  hosts_run n foundSubsets hosts validations validations' →
  validations'
  = withFindings validations
      (⋃ ((λ kh : string * gmap string string,
             collisionNames n foundSubsets kh.2) <$> hosts)).
Proof.
  induction 1 as [v|kh hosts v v' v'' Hkh _ IH]; simpl.
  - by rewrite withFindings_empty.
  - apply collisions_run_names in Hkh. subst v'.
    by rewrite IH, withFindings_union.
Qed.

Lemma hosts_run_any (n : string) (foundSubsets : list subset)
    (hosts : list (string * gmap string string))
    (validations : IstioValidations) :
  hosts_run n foundSubsets hosts validations
    (foldl (λ validations (kh : string * gmap string string),
              checkCollisions validations n foundSubsets kh.2)
       validations hosts).
Proof.
  revert validations. induction hosts as [|kh hosts IH]; intros v; simpl.
  - constructor.
  - econstructor; [|apply IH]. constructor. by unfold ranges.
Qed.

Lemma union_list_ranges {A : Type} (names : string * A → gset string)
    (m : gmap string A) (order : list (string * A)) :
  ranges m order → ⋃ (names <$> order) = ⋃ (names <$> map_to_list m).
Proof.
  unfold ranges. intros Hperm. apply set_eq; intros x.
  rewrite !elem_of_union_list.
  split; intros (X & (kv & -> & Hkv)%list_elem_of_fmap & Hx);
    exists (names kv); (split; [|done]); apply list_elem_of_fmap;
    exists kv; (split; [done|]).
  - by rewrite <- Hperm.
  - by rewrite Hperm.
Qed.

Lemma found_run_names (previous : option (gmap string string)) (n : string)
    (foundSubsets : list subset) (validations validations' : IstioValidations) :
  found_run previous n foundSubsets validations validations' →
  validations'
  = withFindings validations
      match previous with
      | Some previous => collisionNames n foundSubsets previous
      | None => ∅
      end.
Proof.
  destruct previous as [previous|]; simpl.
  - apply collisions_run_names.
  - intros ->. by rewrite withFindings_empty.
Qed.

Lemma body_run_step (st st' : IstioValidations * CollisionIndex)
    (dr : IstioObject) :
  body_run st dr st' → st' = step st dr.
Proof.
  intros Hrun. unfold step, checked.
  destruct Hrun as [st dr Hhost|st dr dHost fqdn Hhost Hfqdn Hex
                   |v seen dr dHost fqdn v1 v2 v3 seen' n fs
                      Hhost Hfqdn Hex H1 H2 H3 Hreg].
  - destruct (GetSpec dr !! "host") as [[| | |dHost| |]|]; try done.
    by destruct (Hhost dHost).
  - rewrite Hhost, Hfqdn. simpl. by rewrite Hex.
  - rewrite Hhost, Hfqdn. simpl. rewrite Hex. simpl. fold n fs.
    f_equal.
    + apply found_run_names in H2, H3. subst v3 v2.
      unfold bodyNames. rewrite <- !withFindings_union. do 2 f_equal.
      case_decide.
      * destruct H1 as (hosts & Hhosts & H1).
        apply hosts_run_names in H1. subst v1. f_equal.
        by apply union_list_ranges.
      * subst v1. by rewrite withFindings_empty.
    + rewrite (registerSubsets_claimed _ _ _ _
                 (default ∅ (seen !! Service fqdn))) in Hreg.
      * injection Hreg as <-.
        destruct (seen !! Service fqdn); simpl; [done|].
        by rewrite insert_insert_eq.
      * destruct (seen !! Service fqdn) eqn:Hin; simpl; [done|].
        apply lookup_insert_eq.
Qed.

Lemma step_body_run (st : IstioValidations * CollisionIndex)
    (dr : IstioObject) :
  body_run st dr (step st dr).
Proof.
  pose proof (Check_body_step st dr) as Hstep.
  destruct st as [v seen]. unfold Check_body in Hstep.
  destruct (GetSpec dr !! "host") as [host|] eqn:Hhost.
  2:{ injection Hstep as <-. apply body_run_no_host. congruence. }
  destruct host as [| | |dHost| |];
    try (injection Hstep as <-; apply body_run_no_host; congruence).
  destruct (FormatHostnameForPrefixSearch dHost _ _) as [fqdn|] eqn:Hfqdn;
    [|done].
  simpl in Hstep.
  destruct (enablesNonLocalmTLS dr fqdn) eqn:Hex.
  { injection Hstep as <-. by eapply body_run_exempt. }
  destruct (registerSubsets _ _ _ _) as [seen'|] eqn:Hreg; [|done].
  simpl in Hstep. injection Hstep as <-.
  set (n := kubernetes.Name (GetObjectMeta dr)) in *.
  set (fs := extractSubsets dr n) in *.
  set (v1 := if decide (Service fqdn = "*") then
               foldl (λ validations (kh : string * gmap string string),
                        checkCollisions validations n fs kh.2)
                 v (map_to_list seen)
             else v).
  set (v2 := match seen !! "*" with
             | Some previous => checkCollisions v1 n fs previous
             | None => v1
             end).
  apply (body_run_checked v seen dr dHost fqdn v1 v2 _ seen' Hhost Hfqdn Hex).
  - unfold v1. case_decide; [|done]. eexists. split; [by unfold ranges|].
    apply hosts_run_any.
  - unfold v2. destruct (seen !! "*"); simpl; [|done].
    constructor. by unfold ranges.
  - destruct (seen !! Service fqdn); simpl; [|done].
    constructor. by unfold ranges.
  - exact Hreg.
Qed.

Lemma rules_run_foldl (st st' : IstioValidations * CollisionIndex)
    (drs : list IstioObject) :
  rules_run st drs st' ↔ st' = foldl step st drs.
Proof.
  split.
  - induction 1 as [st|st st' st'' dr drs Hdr _ IH]; simpl; [done|].
    apply body_run_step in Hdr. by subst st'.
  - intros ->. revert st.
    induction drs as [|dr drs IH]; intros st; simpl; [constructor|].
    econstructor; [apply step_body_run|apply IH].
Qed.

Lemma Check_run_iff (m : MultiMatchChecker) (validations : IstioValidations) :
  Check_run m validations ↔ Check m = Some validations.
Proof.
  rewrite Check_steps. unfold Check_run. split.
  - intros (seen & Hrun). apply rules_run_foldl in Hrun. by rewrite <- Hrun.
  - intros [= <-]. exists (foldl step (∅, ∅) (DestinationRules m)).2.
    apply rules_run_foldl. by destruct (foldl step _ _).
Qed.

(** C9.  [Check] is deterministic.  For every input there is one finding
    map: the executable [Check] returns it, and a run reaches it whatever
    order each [range] over the seen services and over the subset owners
    chooses. *)
Theorem Check_deterministic (m : MultiMatchChecker) :
  ∃ validations,
    Check m = Some validations
    ∧ ∀ validations', Check_run m validations' ↔ validations' = validations.
Proof.
  exists (foldl step (∅, ∅) (DestinationRules m)).1.
  split; [apply Check_steps|]. intros v.
  rewrite Check_run_iff, Check_steps. split; congruence.
Qed.

(** ** Invariants of the pass *)

Lemma wellFormed_withFindings (validations : IstioValidations)
    (names : gset string) :
  wellFormed validations → wellFormed (withFindings validations names).
Proof.
  intros Hwf k x [Hk|[_ (n & _ & -> & ->)]]%lookup_withFindings_Some.
  - by apply Hwf.
  - done.
Qed.

Lemma wellFormed_step (st : IstioValidations * CollisionIndex)
    (dr : IstioObject) :
  wellFormed st.1 → wellFormed (step st dr).1.
Proof.
  intros Hwf. unfold step. destruct (checked dr) as [[service fs]|]; [|done].
  by apply wellFormed_withFindings.
Qed.

Lemma wellFormed_foldl (st : IstioValidations * CollisionIndex)
    (drs : list IstioObject) :
  wellFormed st.1 → wellFormed (foldl step st drs).1.
Proof.
  revert st. induction drs as [|dr drs IH]; intros st Hwf; simpl; [done|].
  by apply IH, wellFormed_step.
Qed.

Lemma flagged_step (st : IstioValidations * CollisionIndex)
    (dr : IstioObject) (x : string) :
  flagged (step st dr).1 x
  ↔ flagged st.1 x
    ∨ ∃ service foundSubsets,
        checked dr = Some (service, foundSubsets)
        ∧ x ∈ bodyNames st.2 service (nameOf dr) foundSubsets.
Proof.
  unfold step. destruct (checked dr) as [[service fs]|]; simpl.
  - rewrite flagged_withFindings. split.
    + intros [?|?]; [by left|]. right. by exists service, fs.
    + intros [?|(? & ? & [= <- <-] & ?)]; [by left|by right].
  - split; [by left|]. by intros [?|(? & ? & ? & _)].
Qed.

Lemma flagged_step_mono (st : IstioValidations * CollisionIndex)
    (dr : IstioObject) (x : string) :
  flagged st.1 x → flagged (step st dr).1 x.
Proof. intros. apply flagged_step. by left. Qed.

Lemma flagged_foldl_mono (st : IstioValidations * CollisionIndex)
    (drs : list IstioObject) (x : string) :
  flagged st.1 x → flagged (foldl step st drs).1 x.
Proof.
  revert st. induction drs as [|dr drs IH]; intros st Hx; simpl; [done|].
  by apply IH, flagged_step_mono.
Qed.

Lemma step_skipped (st : IstioValidations * CollisionIndex)
    (dr : IstioObject) :
  checked dr = None → step st dr = st.
Proof. intros Hdr. unfold step. by rewrite Hdr. Qed.


Lemma claimKept_registered (st : IstioValidations * CollisionIndex)
    (dr : IstioObject) (service x : string) (foundSubsets : list subset) :
  checked dr = Some (service, foundSubsets) →
  x ∈ Name <$> foundSubsets →
  claimKept service x (nameOf dr) (step st dr).
Proof.
  intros Hdr Hx. unfold claimKept, step. rewrite Hdr. simpl.
  eexists _, (nameOf dr). rewrite lookup_insert_eq. split; [done|].
  rewrite lookup_claimed, decide_True by done. eauto.
Qed.

Lemma claimKept_step (st : IstioValidations * CollisionIndex)
    (dr : IstioObject) (service x n : string) :
  claimKept service x n st → claimKept service x n (step st dr).
Proof.
  intros (inner & r & Hinner & Hr & Hn).
  destruct (checked dr) as [[service' fs]|] eqn:Hdr;
    [|rewrite step_skipped by done; by exists inner, r].
  assert (flagged st.1 n → flagged (step st dr).1 n) as Hmono
    by apply flagged_step_mono.
  unfold claimKept. unfold step in *. rewrite Hdr in *. simpl in *.
  destruct (decide (service' = service)) as [->|Hne].
  2:{ exists inner, r. rewrite lookup_insert_ne by done. naive_solver. }
  rewrite lookup_insert_eq, Hinner. simpl.
  destruct (decide (x ∈ Name <$> fs)) as [Hx|Hx].
  2:{ eexists _, r. split; [done|].
      rewrite lookup_claimed, decide_False by done. naive_solver. }
  eexists _, (nameOf dr). split; [done|].
  rewrite lookup_claimed, decide_True by done.
  split; [done|]. right.
  destruct Hn as [->|Hn]; [|by apply Hmono].
  apply flagged_withFindings. right. apply elem_of_bodyNames.
  exists service, inner. split; [done|]. split; [by right; right|].
  apply elem_of_collisionNames. right; right.
  apply list_elem_of_fmap in Hx as (s & -> & Hs). exists s, n. eauto.
Qed.

Lemma claimKept_foldl (st : IstioValidations * CollisionIndex)
    (drs : list IstioObject) (service x n : string) :
  claimKept service x n st → claimKept service x n (foldl step st drs).
Proof.
  revert st. induction drs as [|dr drs IH]; intros st Hst; simpl; [done|].
  by apply IH, claimKept_step.
Qed.

(** Two checked objects that share a subset name, on the same service or
    with one of them on the service "*", are both flagged, whatever else
    the input holds. *)
Lemma overlap_flags_both (before between after : list IstioObject)
    (dr1 dr2 : IstioObject) (service1 service2 x : string)
    (fs1 fs2 : list subset) :
  checked dr1 = Some (service1, fs1) →
  checked dr2 = Some (service2, fs2) →
  service2 = "*" ∨ service1 = "*" ∨ service1 = service2 →
  x ∈ Name <$> fs1 → x ∈ Name <$> fs2 →
  let st := foldl step (∅, ∅) (before ++ dr1 :: between ++ dr2 :: after) in
  flagged st.1 (nameOf dr1) ∧ flagged st.1 (nameOf dr2).
Proof.
  intros Hdr1 Hdr2 Hs Hx1 Hx2. simpl.
  rewrite foldl_app. simpl. rewrite foldl_app. simpl.
  set (st0 := foldl step (∅, ∅) before).
  pose proof (claimKept_registered st0 dr1 service1 x fs1 Hdr1 Hx1) as Hkept.
  apply (claimKept_foldl _ between) in Hkept.
  set (st1 := foldl step (step st0 dr1) between) in *.
  destruct Hkept as (inner & r & Hinner & Hr & Hn).
  assert (∀ y, y = nameOf dr2 ∨ y = r → flagged (step st1 dr2).1 y) as Hboth.
  { intros y Hy. apply flagged_step. right. exists service2, fs2.
    split; [done|]. apply elem_of_bodyNames. exists service1, inner.
    split; [done|]. split; [naive_solver|].
    apply elem_of_collisionNames. right; right.
    apply list_elem_of_fmap in Hx2 as (s & -> & Hs2). exists s, r. eauto. }
  split; apply flagged_foldl_mono.
  - destruct Hn as [<-|Hn]; [by apply Hboth; right|].
    by apply flagged_step_mono.
  - apply Hboth. by left.
Qed.

(** ** The subset extractor, continued *)

(** What the extractor computes.  It returns the single sentinel subset
    when the [subsets] attribute is absent or is not a list.  When it is a
    list, it returns one subset per entry that is a map with a string
    [name], in list order, owned by the given identity, and drops the other
    entries. *)
Theorem extractSubsets_spec (dr : IstioObject) (owner : string) :
  extractSubsets dr owner
  = match GetSpec dr !! "subsets" with
    | Some (VSlice subsetSlice) =>
        subsetsNamed owner (omap declaredName subsetSlice)
    | _ => [sentinel owner]
    end.
Proof.
  destruct (GetSpec dr !! "subsets") as [v|] eqn:Hv.
  2:{ apply extractSubsets_no_slice. intros ?; congruence. }
  destruct v as [| | | |l|];
    try (apply extractSubsets_no_slice; intros ?; congruence).
  by apply extractSubsets_slice.
Qed.

(** C1.  The extractor is to return the sentinel for an object whose
    subset list is absent, empty or entirely malformed.  It does so for the
    absent list, and misses the two other cases: it returns from inside the
    branch of the list, so an empty list and a list without a valid entry
    give no subset at all.  The pass then flags the object "r1" with the
    empty list when it comes after the object "r2" without subsets on the
    same service, and reports nothing for the same two objects in the other
    order. *)
Theorem extractSubsets_empty_list_no_sentinel :
  GetSpec (rule "r1" "reviews" (subsetsOf [])) !! "subsets"
  = Some (VSlice [])
  ∧ extractSubsets (rule "r1" "reviews" (subsetsOf [])) "r1" = []
  ∧ extractSubsets
      (rule "r1" "reviews" {[ "subsets" := VSlice [VMap ∅; VInt 3] ]}) "r1"
    = []
  ∧ extractSubsets (rule "r1" "reviews" (subsetsOf [])) "r1"
    ≠ [sentinel "r1"]
  ∧ extractSubsets (rule "r1" "reviews" ∅) "r1" = [sentinel "r1"]
  ∧ Check {| DestinationRules :=
               [rule "r2" "reviews" ∅;
                rule "r1" "reviews" (subsetsOf [])] |}
    = Some (withFindings ∅ {[ "r1"; "r2" ]})
  ∧ Check {| DestinationRules :=
               [rule "r1" "reviews" (subsetsOf []);
                rule "r2" "reviews" ∅] |}
    = Some ∅.
Proof. repeat split; try reflexivity. discriminate. Qed.

(** C2, as the code has it.  The extractor copies the string name of an
    entry as it is declared: a subset named [n] is produced from a subset
    list exactly when an entry of the list declares the string name [n],
    and this holds for the sentinel name "~" as for any other name. *)
Theorem extractSubsets_name_iff_declared (dr : IstioObject) (owner : string)
    (subsetSlice : list value) (n : string) :
  GetSpec dr !! "subsets" = Some (VSlice subsetSlice) →
  (∃ s, s ∈ extractSubsets dr owner ∧ Name s = n)
  ↔ (∃ element, VMap element ∈ subsetSlice
                ∧ element !! "name" = Some (VString n)).
Proof.
  intros Hs. rewrite (extractSubsets_slice _ _ subsetSlice) by done. split.
  - intros (s & (n' & -> & Hn)%list_elem_of_fmap & <-). simpl.
    apply list_elem_of_omap in Hn as (se & Hse & Hn).
    destruct se as [| | | | |element]; try done. simpl in Hn.
    exists element. split; [done|].
    by destruct (element !! "name") as [[| | |n0| |]|]; simplify_eq.
  - intros (element & Hin & Hname).
    exists {| Name := n; RuleName := owner |}. split; [|done].
    apply list_elem_of_fmap. exists n. split; [done|].
    apply list_elem_of_omap. exists (VMap element). split; [done|].
    simpl. by rewrite Hname.
Qed.

Lemma extractSubsets_name_iff_declared_witness :
  GetSpec (rule "r1" "reviews" (subsetsOf ["~"])) !! "subsets"
  = Some (VSlice [named "~"])
  ∧ ((∃ s, s ∈ extractSubsets (rule "r1" "reviews" (subsetsOf ["~"])) "r1"
           ∧ Name s = "~")
     ↔ (∃ element, VMap element ∈ [named "~"]
                   ∧ element !! "name" = Some (VString "~"))).
Proof.
  split; [reflexivity|].
  apply (extractSubsets_name_iff_declared
           (rule "r1" "reviews" (subsetsOf ["~"])) "r1" [named "~"] "~").
  reflexivity.
Defined.

(** C2 fails as stated: a declared subset named "~" is extracted as the
    sentinel itself, and the collision check then takes the object for one
    that declares no subsets: it collides with an object that declares only
    the subset "v1". *)
Lemma declared_tilde_is_sentinel :
  extractSubsets (rule "r1" "reviews" (subsetsOf ["~"])) "r1" = [sentinel "r1"]
  ∧ Check {| DestinationRules :=
               [rule "r2" "reviews" (subsetsOf ["v1"]);
                rule "r1" "reviews" (subsetsOf ["~"])] |}
    = Some (withFindings ∅ {[ "r1"; "r2" ]}).
Proof. split; reflexivity. Qed.

(** ** Collisions between two objects *)





(** ** Findings are recorded once *)

Lemma NoDup_all_equal_length {A : Type} (l : list A) (a : A) :
  NoDup l → (∀ y, y ∈ l → y = a) → (length l ≤ 1)%nat.
Proof.
  intros Hnodup Hall. destruct l as [|y [|z l]]; simpl; [lia..|].
  apply NoDup_cons in Hnodup as [Hy _]. destruct Hy.
  rewrite (Hall y), (Hall z); [by left| |by left]. right. by left.
Qed.

Lemma occurrences_le_1 (validations : IstioValidations) (n : string) :
  wellFormed validations → (occurrences validations n ≤ 1)%nat.
Proof.
  intros Hwf. unfold occurrences.
  apply (NoDup_all_equal_length _ (multimatchKey n, multimatchValidation n)).
  - apply NoDup_filter, NoDup_map_to_list.
  - intros [k x] [Hn Hkx%elem_of_map_to_list]%list_elem_of_filter.
    simpl in Hn. destruct (Hwf k x Hkx) as [-> ->]. by rewrite Hn.
Qed.

Lemma occurrences_flagged (validations : IstioValidations) (n : string) :
  wellFormed validations → flagged validations n → occurrences validations n = 1.
Proof.
  intros Hwf [x Hx]. pose proof (occurrences_le_1 validations n Hwf) as Hle.
  assert (0 < occurrences validations n)%nat; [|lia].
  unfold occurrences.
  assert ((multimatchKey n, x)
            ∈ filter (λ kv : IstioValidationKey * IstioValidation,
                        KeyName kv.1 = n) (map_to_list validations)) as Hin.
  { apply list_elem_of_filter. split; [done|]. by apply elem_of_map_to_list. }
  destruct (filter _ _); [by apply elem_of_nil in Hin|simpl; lia].
Qed.

Lemma wellFormed_Check (drs : list IstioObject) :
  wellFormed (foldl step (∅, ∅) drs).1.
Proof.
  apply wellFormed_foldl. intros k x Hk. simpl in Hk.
  by rewrite lookup_empty in Hk.
Qed.

(** C6.  Recording is idempotent: recording the same names twice gives the
    findings of recording them once.  In the result of [Check] every
    identity has at most one entry.  Three objects checked on the same
    service, each with the single sentinel subset, have exactly one entry
    each. *)
Theorem findings_once_per_identity (m : MultiMatchChecker) (n : string)
    (dr1 dr2 dr3 : IstioObject) (service : string) :
  checked dr1 = Some (service, [sentinel (nameOf dr1)]) →
  checked dr2 = Some (service, [sentinel (nameOf dr2)]) →
  checked dr3 = Some (service, [sentinel (nameOf dr3)]) →
  (∀ (validations : IstioValidations) names,
     addError (addError validations names) names = addError validations names)
  ∧ (∃ validations, Check m = Some validations
                   ∧ (occurrences validations n ≤ 1)%nat)
  ∧ (∃ validations,
       Check {| DestinationRules := [dr1; dr2; dr3] |} = Some validations
       ∧ occurrences validations (nameOf dr1) = 1
       ∧ occurrences validations (nameOf dr2) = 1
       ∧ occurrences validations (nameOf dr3) = 1).
Proof.
  intros Hdr1 Hdr2 Hdr3. split; [|split].
  - intros v names. rewrite !addError_withFindings, withFindings_union.
    f_equal. set_solver.
  - eexists. split; [apply Check_steps|].
    apply occurrences_le_1, wellFormed_Check.
  - eexists. split; [apply Check_steps|]. simpl DestinationRules.
    pose proof (wellFormed_Check [dr1; dr2; dr3]) as Hwf.
    destruct (overlap_flags_both [] [] [dr3] dr1 dr2 service service "~"
                _ _ Hdr1 Hdr2) as [H1 H2];
      [by right; right|by left|by left|].
    destruct (overlap_flags_both [dr1] [] [] dr2 dr3 service service "~"
                _ _ Hdr2 Hdr3) as [_ H3];
      [by right; right|by left|by left|].
    split; [|split]; by apply occurrences_flagged.
Qed.

Lemma findings_once_per_identity_witness :
  checked (rule "r1" "reviews" ∅) = Some ("reviews", [sentinel "r1"])
  ∧ checked (rule "r2" "reviews.bookinfo" ∅)
    = Some ("reviews", [sentinel "r2"])
  ∧ checked (rule "r3" "reviews.bookinfo.svc.cluster.local" ∅)
    = Some ("reviews", [sentinel "r3"])
  ∧ ∃ validations,
      Check {| DestinationRules :=
                 [rule "r1" "reviews" ∅;
                  rule "r2" "reviews.bookinfo" ∅;
                  rule "r3" "reviews.bookinfo.svc.cluster.local" ∅] |}
      = Some validations
      ∧ occurrences validations "r1" = 1
      ∧ occurrences validations "r2" = 1
      ∧ occurrences validations "r3" = 1.
Proof.
  split; [reflexivity|]. split; [reflexivity|]. split; [reflexivity|].
  apply (findings_once_per_identity {| DestinationRules := [] |} "r1"
           (rule "r1" "reviews" ∅) (rule "r2" "reviews.bookinfo" ∅)
           (rule "r3" "reviews.bookinfo.svc.cluster.local" ∅) "reviews");
    reflexivity.
Defined.

(** ** The exemption *)

(** The names of the findings and the owners in the index are names of
    checked objects of the input. *)
Lemma findings_from_checked (drs : list IstioObject) :
  let st := foldl step (∅, ∅) drs in
  (∀ x, flagged st.1 x →
        ∃ dr, dr ∈ drs ∧ is_Some (checked dr) ∧ nameOf dr = x)
  ∧ (∀ k existing y r,
       st.2 !! k = Some existing → existing !! y = Some r →
       ∃ dr, dr ∈ drs ∧ is_Some (checked dr) ∧ nameOf dr = r).
Proof.
  induction drs as [|dr drs IH] using rev_ind; simpl.
  { split.
    - intros x [v Hv]. by rewrite lookup_empty in Hv.
    - intros k ex y r Hk. by rewrite lookup_empty in Hk. }
  rewrite foldl_app. simpl in *. set (st := foldl step (∅, ∅) drs) in *.
  destruct IH as [IHf IHo].
  assert (∀ x, (∃ dr', dr' ∈ drs ∧ is_Some (checked dr') ∧ nameOf dr' = x) →
               ∃ dr', dr' ∈ (drs ++ [dr])%list ∧ is_Some (checked dr')
                      ∧ nameOf dr' = x) as Hweaken.
  { intros x (dr' & Hin & Hc & Hn). exists dr'. split; [|done].
    apply elem_of_app. by left. }
  destruct (checked dr) as [[service fs]|] eqn:Hdr.
  2:{ rewrite step_skipped by done. split; eauto. }
  assert (∃ dr', dr' ∈ (drs ++ [dr])%list ∧ is_Some (checked dr')
                 ∧ nameOf dr' = nameOf dr) as Hself.
  { exists dr. split; [|by rewrite Hdr]. apply elem_of_app. right. by left. }
  split.
  - intros x [Hx|(service' & fs' & Heq & Hx)]%flagged_step; [eauto|].
    apply elem_of_bodyNames in Hx as (k & ex & Hk & _ & Hx).
    apply elem_of_collisionNames in Hx
      as [[_ (y & r & Hr & [->| ->])]
         |[(r & Hr & [->| ->])|(s & r & _ & Hr & [->| ->])]]; eauto.
  - intros k ex y r. unfold step. rewrite Hdr. simpl.
    intros [[<- <-]|[_ Hk]]%lookup_insert_Some; [|eauto].
    rewrite lookup_claimed. case_decide; [by intros [= <-]|].
    destruct (st.2 !! service) as [inner|] eqn:Hinner; simpl; [eauto|].
    by rewrite lookup_empty.
Qed.

(** C7, as the code has it.  An object the exemption filter accepts, so one
    whose host has the service "*" and whose [trafficPolicy.tls.mode] is
    "ISTIO_MUTUAL", is bypassed: the body of the loop leaves the findings
    and the index as they are, removing the object from the input leaves
    the result of [Check] unchanged, and its name is in the findings only
    when a checked object of the input has the same name. *)
Theorem exempt_object_is_bypassed (before after : list IstioObject)
    (dr : IstioObject) (dHost : string) (fqdn : Host) :
  GetSpec dr !! "host" = Some (VString dHost) →
  FormatHostnameForPrefixSearch dHost
    (kubernetes.Namespace (GetObjectMeta dr))
    (ClusterName (GetObjectMeta dr)) = Some fqdn →
  enablesNonLocalmTLS dr fqdn = true →
  (∀ st, Check_body st dr = Some st)
  ∧ Check {| DestinationRules := before ++ dr :: after |}
    = Check {| DestinationRules := before ++ after |}
  ∧ ∃ validations,
      Check {| DestinationRules := before ++ dr :: after |} = Some validations
      ∧ (flagged validations (nameOf dr) →
         ∃ dr', dr' ∈ (before ++ after)%list ∧ is_Some (checked dr')
                ∧ nameOf dr' = nameOf dr).
Proof.
  intros Hhost Hfqdn Hexempt.
  assert (checked dr = None) as Hskip
    by (unfold checked; rewrite Hhost, Hfqdn; simpl; by rewrite Hexempt).
  assert (Check {| DestinationRules := before ++ dr :: after |}
          = Check {| DestinationRules := before ++ after |}) as Heq.
  { rewrite !Check_steps. simpl. rewrite !foldl_app. simpl.
    by rewrite step_skipped. }
  split; [|split; [done|]].
  - intros st. by rewrite Check_body_step, step_skipped.
  - rewrite Heq. eexists. split; [apply Check_steps|].
    apply (findings_from_checked (before ++ after)).
Qed.

Lemma exempt_object_is_bypassed_witness :
  GetSpec (rule "mesh" "*.local" mutualTLS) !! "host"
  = Some (VString "*.local")
  ∧ FormatHostnameForPrefixSearch "*.local" "bookinfo" ""
    = Some {| Service := "*"; Namespace := "local"; Cluster := "" |}
  ∧ enablesNonLocalmTLS (rule "mesh" "*.local" mutualTLS)
      {| Service := "*"; Namespace := "local"; Cluster := "" |} = true
  ∧ Check {| DestinationRules :=
               [rule "r1" "reviews" (subsetsOf ["v1"])]
               ++ rule "mesh" "*.local" mutualTLS
                  :: [rule "r2" "reviews" (subsetsOf ["v1"])] |}
    = Check {| DestinationRules :=
                 [rule "r1" "reviews" (subsetsOf ["v1"])]
                 ++ [rule "r2" "reviews" (subsetsOf ["v1"])] |}.
Proof.
  split; [reflexivity|]. split; [reflexivity|]. split; [reflexivity|].
  apply (exempt_object_is_bypassed
           [rule "r1" "reviews" (subsetsOf ["v1"])]
           [rule "r2" "reviews" (subsetsOf ["v1"])]
           (rule "mesh" "*.local" mutualTLS) "*.local"
           {| Service := "*"; Namespace := "local"; Cluster := "" |});
    reflexivity.
Defined.

(** C7 fails as stated: the host "svc.ns" has the service "svc", not "*",
    so the exemption filter rejects the object whatever its TLS mode.  The
    object is checked as any other: it is reported, and it causes a finding
    for the object "r2", which alone is not reported. *)
Lemma concrete_host_with_mutual_tls_is_checked :
  FormatHostnameForPrefixSearch "svc.ns" "bookinfo" ""
  = Some {| Service := "svc"; Namespace := "ns"; Cluster := "" |}
  ∧ enablesNonLocalmTLS (rule "mtls" "svc.ns" mutualTLS)
      {| Service := "svc"; Namespace := "ns"; Cluster := "" |} = false
  ∧ Check {| DestinationRules :=
               [rule "mtls" "svc.ns" mutualTLS;
                rule "r2" "svc" (subsetsOf ["v1"])] |}
    = Some (withFindings ∅ {[ "mtls"; "r2" ]})
  ∧ Check {| DestinationRules := [rule "r2" "svc" (subsetsOf ["v1"])] |}
    = Some ∅.
Proof. repeat split; reflexivity. Qed.

(** ** The stored validations *)

(** C10.  Every validation in the result of [Check] is stored under the
    object type "destinationrule" and the name it carries, has [Valid] set
    to [true], the object type "destinationrule", and exactly one check,
    the one built from the code "destinationrules.multimatch" and the path
    "spec/host". *)
Theorem stored_validation_shape (m : MultiMatchChecker)
    (validations : IstioValidations) (k : IstioValidationKey)
    (x : IstioValidation) :
  Check m = Some validations →
  validations !! k = Some x →
  KeyObjectType k = "destinationrule"
  ∧ models.Name x = KeyName k
  ∧ ObjectType x = "destinationrule"
  ∧ Valid x = true
  ∧ Checks x = [Build "destinationrules.multimatch" "spec/host"].
Proof.
  rewrite Check_steps. intros [= <-] Hk.
  destruct (wellFormed_Check (DestinationRules m) k x Hk) as [-> ->].
  done.
Qed.

Lemma stored_validation_shape_witness :
  Check {| DestinationRules :=
             [rule "r1" "reviews" ∅; rule "r2" "reviews" ∅] |}
  = Some (withFindings ∅ {[ "r1"; "r2" ]})
  ∧ withFindings ∅ {[ "r1"; "r2" ]} !! multimatchKey "r1"
    = Some (multimatchValidation "r1")
  ∧ Valid (multimatchValidation "r1") = true
  ∧ Checks (multimatchValidation "r1")
    = [Build "destinationrules.multimatch" "spec/host"].
Proof.
  split; [reflexivity|]. split; [reflexivity|].
  apply (stored_validation_shape
           {| DestinationRules :=
                [rule "r1" "reviews" ∅; rule "r2" "reviews" ∅] |}
           (withFindings ∅ {[ "r1"; "r2" ]}) (multimatchKey "r1")
           (multimatchValidation "r1")); reflexivity.
Defined.

(** * Further properties *)

(** ** The host normaliser, continued *)

Lemma Split_noDot (s : string) : noDot s → Split s "."%char = [s].
Proof.
  unfold noDot. induction s as [|a s IH]; simpl; [done|]. intros Hdot.
  rewrite decide_False by (intros ->; apply Hdot; by left).
  rewrite IH; [done|]. intros ?. apply Hdot. by right.
Qed.

Lemma Split_noDot_app (s rest : string) :
  noDot s →
  Split (s +:+ String "."%char rest) "."%char = s :: Split rest "."%char.
Proof.
  unfold noDot. induction s as [|a s IH]; simpl; [done|]. intros Hdot.
  rewrite decide_False by (intros ->; apply Hdot; by left).
  rewrite IH; [done|]. intros ?. apply Hdot. by right.
Qed.

(** X1.  The service of a normalised host is exactly the first
    dot-segment of the host name: it holds no dot, and the host name is
    the service itself or the service followed by a dot and the rest. *)
Theorem service_has_no_dot (hostName namespace clusterName : string) :
  ∃ fqdn,
    FormatHostnameForPrefixSearch hostName namespace clusterName = Some fqdn
    ∧ noDot (Service fqdn)
    ∧ (hostName = Service fqdn
       ∨ ∃ rest, hostName = Service fqdn +:+ "." +:+ rest).
Proof.
  eexists. split; [apply FormatHostnameForPrefixSearch_eq|]. simpl.
  pose proof (Split_nonempty hostName "."%char) as Hne.
  pose proof (Split_no_sep hostName "."%char) as Hsep.
  pose proof (Join_Split hostName "."%char) as Hjoin.
  destruct (Split hostName "."%char) as [|service parts]; [done|]. simpl.
  split.
  - intros Hdot. by apply (Hsep service (list_elem_of_here _ _) "."%char).
  - destruct parts as [|part parts]; simpl in Hjoin.
    + by left.
    + right. by eexists.
Qed.

(** X2.  The service of a normalised host is "*" exactly when the host
    name is "*" or begins with "*.": these are the hosts the pass treats
    as wildcards. *)
Theorem wildcard_service_iff (hostName namespace clusterName : string) :
  Service <$> FormatHostnameForPrefixSearch hostName namespace clusterName
  = Some "*"
  ↔ hostName = "*" ∨ ∃ rest, hostName = "*." +:+ rest.
Proof.
  rewrite FormatHostnameForPrefixSearch_eq. simpl. split.
  - intros [= Hservice].
    pose proof (Join_Split hostName "."%char) as Hjoin.
    destruct (Split hostName "."%char) as [|service [|part parts]];
      simpl in *; subst.
    + done.
    + by left.
    + right. by eexists.
  - intros [->|[rest ->]]; [done|]. simpl.
    by destruct (Split rest "."%char).
Qed.

(** X3.  Round trip.  From the dotted name of a service, a non-empty
    namespace and a non-empty cluster the normaliser returns these three,
    whatever the namespace and the cluster of the owning object are: the
    host name takes precedence. *)
Theorem qualified_host_roundtrip (service ns cluster namespace clusterName
    : string) :
  noDot service → noDot ns → ns ≠ "" → cluster ≠ "" →
  FormatHostnameForPrefixSearch (service +:+ "." +:+ ns +:+ "." +:+ cluster)
    namespace clusterName
  = Some {| Service := service; Namespace := ns; Cluster := cluster |}.
Proof.
  intros Hservice Hns Hne Hcluster.
  rewrite FormatHostnameForPrefixSearch_eq.
  change ("." +:+ ns +:+ "." +:+ cluster)
    with (String "."%char (ns +:+ String "."%char cluster)).
  rewrite (Split_noDot_app service), (Split_noDot_app ns) by done.
  simpl. rewrite drop_0, (Join_Split cluster "."%char).
  by rewrite !decide_False by done.
Qed.

Lemma qualified_host_roundtrip_witness :
  noDot "reviews" ∧ noDot "bookinfo" ∧ "bookinfo" ≠ ""
  ∧ "svc.cluster.local" ≠ ""
  ∧ FormatHostnameForPrefixSearch
      ("reviews" +:+ "." +:+ "bookinfo" +:+ "." +:+ "svc.cluster.local")
      "default" "east"
    = Some {| Service := "reviews"; Namespace := "bookinfo";
              Cluster := "svc.cluster.local" |}.
Proof.
  assert (noDot "reviews") as H1 by (unfold noDot; simpl; set_solver).
  assert (noDot "bookinfo") as H2 by (unfold noDot; simpl; set_solver).
  split; [exact H1|]. split; [exact H2|]. split; [done|]. split; [done|].
  exact (qualified_host_roundtrip "reviews" "bookinfo" "svc.cluster.local"
           "default" "east" H1 H2 ltac:(done) ltac:(done)).
Defined.

(** X4.  A host name of one segment, the empty name included, takes the
    namespace and the cluster of the owning object; a host name of two
    segments with a non-empty second one takes the cluster only. *)
Theorem short_host_takes_defaults (service ns namespace clusterName : string) :
  noDot service → noDot ns → ns ≠ "" →
  FormatHostnameForPrefixSearch service namespace clusterName
  = Some {| Service := service; Namespace := namespace;
            Cluster := clusterName |}
  ∧ FormatHostnameForPrefixSearch (service +:+ "." +:+ ns)
      namespace clusterName
    = Some {| Service := service; Namespace := ns; Cluster := clusterName |}.
Proof.
  intros Hservice Hns Hne. rewrite !FormatHostnameForPrefixSearch_eq.
  change ("." +:+ ns) with (String "."%char ns).
  rewrite Split_noDot_app, !Split_noDot by done. simpl.
  by rewrite decide_False by done.
Qed.

Lemma short_host_takes_defaults_witness :
  noDot "" ∧ noDot "bookinfo" ∧ "bookinfo" ≠ ""
  ∧ FormatHostnameForPrefixSearch "" "default" "east"
    = Some {| Service := ""; Namespace := "default"; Cluster := "east" |}
  ∧ FormatHostnameForPrefixSearch ("" +:+ "." +:+ "bookinfo") "default" "east"
    = Some {| Service := ""; Namespace := "bookinfo"; Cluster := "east" |}.
Proof.
  assert (noDot "") as H1 by (unfold noDot; simpl; set_solver).
  assert (noDot "bookinfo") as H2 by (unfold noDot; simpl; set_solver).
  split; [exact H1|]. split; [exact H2|]. split; [done|].
  exact (short_host_takes_defaults "" "bookinfo" "default" "east"
           H1 H2 ltac:(done)).
Defined.

(** X5.  When the owning object has a non-empty namespace and a non-empty
    cluster, the normalised host has them non-empty too, whatever the host
    name. *)
Theorem defaults_fill_empty_fields (hostName namespace clusterName : string)
    (fqdn : Host) :
  namespace ≠ "" → clusterName ≠ "" →
  FormatHostnameForPrefixSearch hostName namespace clusterName = Some fqdn →
  Namespace fqdn ≠ "" ∧ Cluster fqdn ≠ "".
Proof.
  intros Hns Hcluster. rewrite FormatHostnameForPrefixSearch_eq.
  intros [= <-]. simpl. split; by case_decide.
Qed.

Lemma defaults_fill_empty_fields_witness :
  "default" ≠ "" ∧ "east" ≠ ""
  ∧ FormatHostnameForPrefixSearch "reviews." "default" "east"
    = Some {| Service := "reviews"; Namespace := "default";
              Cluster := "east" |}
  ∧ Namespace {| Service := "reviews"; Namespace := "default";
                 Cluster := "east" |} ≠ ""
  ∧ Cluster {| Service := "reviews"; Namespace := "default";
               Cluster := "east" |} ≠ "".
Proof.
  split; [done|]. split; [done|]. split; [reflexivity|].
  exact (defaults_fill_empty_fields "reviews." "default" "east" _
           ltac:(done) ltac:(done) eq_refl).
Defined.

(** ** Recording, continued *)

(** X6.  [addError] keeps every entry the map already holds, also the
    entries of other checkers stored under another object type, and adds
    exactly the validations of the given names that have no entry yet. *)
Theorem addError_lookup (validations : IstioValidations)
    (destinationRuleNames : list string) (k : IstioValidationKey) :
  addError validations destinationRuleNames !! k
  = match validations !! k with
    | Some x => Some x
    | None =>
        if decide (KeyObjectType k = DestinationRulesCheckerType
                   ∧ KeyName k ∈ destinationRuleNames)
        then Some (multimatchValidation (KeyName k))
        else None
    end.
Proof.
  rewrite addError_withFindings. apply option_eq; intros x.
  rewrite lookup_withFindings_Some.
  destruct (validations !! k) as [y|] eqn:Hk.
  - split; [|by left]. by intros [?|[? _]].
  - split.
    + intros [?|[_ (n & Hn%elem_of_list_to_set & -> & ->)]]; [done|].
      by rewrite decide_True.
    + case_decide as Hd; [|done]. destruct Hd as [Htype Hn]. intros [= <-].
      right. split; [done|]. exists (KeyName k).
      split; [by apply elem_of_list_to_set|]. split; [|done].
      destruct k as [t n]. simpl in *. by subst t.
Qed.

(** X7.  Recordings commute, and recording a list of names is recording
    them one after the other: the findings depend on the set of names
    recorded, not on the order or the grouping of the calls. *)
Theorem addError_commutes (validations : IstioValidations)
    (names1 names2 : list string) :
  addError (addError validations names1) names2
  = addError (addError validations names2) names1
  ∧ addError (addError validations names1) names2
    = addError validations (names1 ++ names2).
Proof.
  rewrite !addError_withFindings, !withFindings_union. split; f_equal.
  - apply union_comm_L.
  - by rewrite list_to_set_app_L.
Qed.

(** ** The collision check, continued *)

Lemma collisionNames_empty (n : string) (foundSubsets : list subset) :
  collisionNames n foundSubsets ∅ = ∅.
Proof.
  apply elem_of_equiv_empty_L. intros x Hx.
  apply elem_of_collisionNames in Hx
    as [[_ (k & r & Hk & _)]|[(r & Hk & _)|(s & r & _ & Hk & _)]];
    by rewrite lookup_empty in Hk.
Qed.

(** X8.  Against a service for which no subset is registered the collision
    check records nothing, whatever the subsets of the current object. *)
Theorem checkCollisions_nothing_registered (validations : IstioValidations)
    (destinationRulesName : string) (foundSubsets : list subset) :
  checkCollisions validations destinationRulesName foundSubsets ∅
  = validations.
Proof.
  by rewrite checkCollisions_names, collisionNames_empty, withFindings_empty.
Qed.

(** X9.  The collision check flags the current object exactly when it was
    flagged before, or it has the single sentinel subset and some subset is
    registered, or the sentinel is registered, or one of its own subsets is
    registered. *)
Theorem checkCollisions_flags_current_iff (validations : IstioValidations)
    (destinationRulesName : string) (foundSubsets : list subset)
    (existing : gmap string string) :
  flagged (checkCollisions validations destinationRulesName foundSubsets
             existing) destinationRulesName
  ↔ flagged validations destinationRulesName
    ∨ (singleSentinel foundSubsets = true ∧ existing ≠ ∅)
    ∨ is_Some (existing !! "~")
    ∨ ∃ s, s ∈ foundSubsets ∧ is_Some (existing !! Name s).
Proof.
  rewrite checkCollisions_names, flagged_withFindings, elem_of_collisionNames.
  split.
  - intros [?|[[Hs (k & r & Hk & _)]|[(r & Hr & _)|(s & r & Hs & Hr & _)]]].
    + by left.
    + right; left. split; [done|]. intros ->. by rewrite lookup_empty in Hk.
    + right; right; left. by exists r.
    + right; right; right. exists s. split; [done|]. by exists r.
  - intros [?|[[Hs He]|[[r Hr]|(s & Hs & [r Hr])]]].
    + by left.
    + right; left. split; [done|].
      apply map_choose in He as (k & r & Hk). exists k, r. eauto.
    + right; right; left. exists r. eauto.
    + right; right; right. exists s, r. eauto.
Qed.

(** X10.  The collision check never flags a partner alone: a name it adds
    to the findings is the current object or the owner of a registered
    subset, and the current object is flagged with it. *)
Theorem checkCollisions_flags_with_current (validations : IstioValidations)
    (destinationRulesName : string) (foundSubsets : list subset)
    (existing : gmap string string) (x : string) :
  flagged (checkCollisions validations destinationRulesName foundSubsets
             existing) x →
  flagged validations x
  ∨ (flagged (checkCollisions validations destinationRulesName foundSubsets
                existing) destinationRulesName
     ∧ (x = destinationRulesName ∨ ∃ k, existing !! k = Some x)).
Proof.
  rewrite checkCollisions_names, !flagged_withFindings.
  intros [?|Hx]; [by left|]. right.
  apply elem_of_collisionNames in Hx as Hcases.
  split.
  - right. apply elem_of_collisionNames.
    destruct Hcases
      as [[Hs (k & r & Hk & _)]|[(r & Hr & _)|(s & r & Hs & Hr & _)]].
    + left. split; [done|]. exists k, r. eauto.
    + right; left. exists r. eauto.
    + right; right. exists s, r. eauto.
  - destruct Hcases
      as [[_ (k & r & Hk & [->| ->])]
         |[(r & Hr & [->| ->])|(s & r & _ & Hr & [->| ->])]]; eauto.
Qed.

Lemma checkCollisions_flags_with_current_witness :
  flagged (checkCollisions ∅ "r2" [sentinel "r2"] {[ "v1" := "r1" ]}) "r1"
  ∧ (flagged ∅ "r1"
     ∨ (flagged (checkCollisions ∅ "r2" [sentinel "r2"] {[ "v1" := "r1" ]})
          "r2"
        ∧ ("r1" = "r2"
           ∨ ∃ k, ({[ "v1" := "r1" ]} : gmap string string) !! k = Some "r1"))).
Proof.
  assert (flagged (checkCollisions ∅ "r2" [sentinel "r2"] {[ "v1" := "r1" ]})
            "r1") as H by (by eexists).
  split; [exact H|].
  exact (checkCollisions_flags_with_current ∅ "r2" [sentinel "r2"]
           {[ "v1" := "r1" ]} "r1" H).
Defined.

(** ** Which objects are flagged *)

Lemma lookup_two_split {A : Type} (l : list A) (i j : nat) (a b : A) :
  (i < j)%nat → l !! i = Some a → l !! j = Some b →
  ∃ before between after, l = (before ++ a :: between ++ b :: after)%list.
Proof.
  intros Hij Hi Hj.
  exists (take i l), (take (j - S i) (drop (S i) l)),
    (drop (S (j - S i)) (drop (S i) l)).
  rewrite (take_drop_middle (drop (S i) l) (j - S i) b).
  - by rewrite take_drop_middle.
  - rewrite lookup_drop. by replace (S i + (j - S i))%nat with j by lia.
Qed.

(** A checked object and a later checked object on a compatible service
    whose subsets overlap are both flagged, whatever else the input holds. *)
Lemma colliding_pair_flagged (before between after : list IstioObject)
    (dr1 dr2 : IstioObject) (service1 service2 : string)
    (fs1 fs2 : list subset) :
  checked dr1 = Some (service1, fs1) →
  checked dr2 = Some (service2, fs2) →
  compatible service1 service2 →
  overlaps fs1 fs2 →
  let st := foldl step (∅, ∅) (before ++ dr1 :: between ++ dr2 :: after) in
  flagged st.1 (nameOf dr1) ∧ flagged st.1 (nameOf dr2).
Proof.
  intros Hdr1 Hdr2 Hs Hover. simpl.
  rewrite foldl_app. simpl. rewrite foldl_app. simpl.
  set (st0 := foldl step (∅, ∅) before).
  assert (∃ y, y ∈ Name <$> fs1
               ∧ ∀ inner r z, inner !! y = Some r →
                   z = nameOf dr2 ∨ z = r →
                   z ∈ collisionNames (nameOf dr2) fs2 inner) as (y & Hy & Hin).
  { destruct Hover as [[Hsingle Hne]|[Htilde|(y & Hy1 & Hy2)]].
    - destruct fs1 as [|s fs1]; [done|]. exists (Name s).
      split; [by left|]. intros inner r z Hr Hz.
      apply elem_of_collisionNames. left. split; [done|]. eauto.
    - exists "~". split; [done|]. intros inner r z Hr Hz.
      apply elem_of_collisionNames. right; left. eauto.
    - exists y. split; [done|]. intros inner r z Hr Hz.
      apply elem_of_collisionNames. right; right.
      apply list_elem_of_fmap in Hy2 as (s & -> & Hs2). exists s, r. eauto. }
  pose proof (claimKept_registered st0 dr1 service1 y fs1 Hdr1 Hy) as Hkept.
  apply (claimKept_foldl _ between) in Hkept.
  set (st1 := foldl step (step st0 dr1) between) in *.
  destruct Hkept as (inner & r & Hinner & Hr & Hn).
  assert (∀ z, z = nameOf dr2 ∨ z = r → flagged (step st1 dr2).1 z) as Hboth.
  { intros z Hz. apply flagged_step. right. exists service2, fs2.
    split; [done|]. apply elem_of_bodyNames. exists service1, inner.
    split; [done|]. split; [exact Hs|]. by eapply Hin. }
  split; apply flagged_foldl_mono.
  - destruct Hn as [<-|Hn]; [by apply Hboth; right|].
    by apply flagged_step_mono.
  - apply Hboth. by left.
Qed.

(** Every flagged name belongs to such a pair, and every owner in the index
    is a checked object that declared the subset under that service. *)
Lemma flagged_has_partner (drs : list IstioObject) :
  let st := foldl step (∅, ∅) drs in
  (∀ x, flagged st.1 x →
        ∃ i j dr1 dr2 service1 fs1 service2 fs2,
          (i < j)%nat ∧ drs !! i = Some dr1 ∧ drs !! j = Some dr2
          ∧ checked dr1 = Some (service1, fs1)
          ∧ checked dr2 = Some (service2, fs2)
          ∧ compatible service1 service2 ∧ overlaps fs1 fs2
          ∧ (x = nameOf dr1 ∨ x = nameOf dr2))
  ∧ (∀ k existing y r,
       st.2 !! k = Some existing → existing !! y = Some r →
       ∃ i dr fs, drs !! i = Some dr ∧ checked dr = Some (k, fs)
                  ∧ nameOf dr = r ∧ y ∈ Name <$> fs).
Proof.
  induction drs as [|dr drs IH] using rev_ind; simpl.
  { split.
    - intros x [v Hv]. by rewrite lookup_empty in Hv.
    - intros k ex y r Hk. by rewrite lookup_empty in Hk. }
  rewrite foldl_app. simpl in *. set (st := foldl step (∅, ∅) drs) in *.
  destruct IH as [IHf IHo].
  destruct (checked dr) as [[service fs]|] eqn:Hdr.
  2:{ rewrite step_skipped by done. split.
      - intros x Hx.
        destruct (IHf x Hx)
          as (i & j & d1 & d2 & s1 & f1 & s2 & f2 & ? & Hi & Hj & ?).
        exists i, j, d1, d2, s1, f1, s2, f2.
        split; [done|]. split; [by apply lookup_app_l_Some|].
        split; [by apply lookup_app_l_Some|]. done.
      - intros k ex y r Hk Hr.
        destruct (IHo k ex y r Hk Hr) as (i & d & f & Hi & ?).
        exists i, d, f. split; [by apply lookup_app_l_Some|]. done. }
  split.
  - intros x [Hx|(service' & fs' & Heq & Hx)]%flagged_step.
    { destruct (IHf x Hx)
        as (i & j & d1 & d2 & s1 & f1 & s2 & f2 & ? & Hi & Hj & ?).
      exists i, j, d1, d2, s1, f1, s2, f2.
      split; [done|]. split; [by apply lookup_app_l_Some|].
      split; [by apply lookup_app_l_Some|]. done. }
    rewrite Hdr in Heq. injection Heq as <- <-.
    apply elem_of_bodyNames in Hx as (k & ex & Hk & Hcompat & Hx).
    assert (∃ y r, ex !! y = Some r ∧ (x = nameOf dr ∨ x = r)
                   ∧ ∀ f1, y ∈ Name <$> f1 → overlaps f1 fs)
      as (y & r & Hr & Hxr & Hover).
    { apply elem_of_collisionNames in Hx
        as [[Hsingle (y & r & Hr & Hx)]
           |[(r & Hr & Hx)|(s & r & Hs & Hr & Hx)]].
      - exists y, r. split; [done|]. split; [done|]. intros f1 Hy.
        left. split; [done|]. intros ->. by apply elem_of_nil in Hy.
      - exists "~", r. split; [done|]. split; [done|]. intros f1 Hy.
        by right; left.
      - exists (Name s), r. split; [done|]. split; [done|]. intros f1 Hy.
        right; right. exists (Name s). split; [done|].
        apply list_elem_of_fmap. eauto. }
    destruct (IHo k ex y r Hk Hr) as (i & d & f & Hi & Hd & Hname & Hy).
    exists i, (length drs), d, dr, k, f, service, fs.
    split; [by eapply lookup_lt_Some|].
    split; [by apply lookup_app_l_Some|].
    split; [by apply list_lookup_middle|].
    split; [done|]. split; [done|]. split; [exact Hcompat|].
    split; [by apply Hover|]. destruct Hxr as [->| ->]; [by right|by left].
  - intros k ex y r. unfold step. rewrite Hdr. simpl.
    intros [[<- <-]|[_ Hk]]%lookup_insert_Some.
    + rewrite lookup_claimed. case_decide as Hy.
      * intros [= <-]. exists (length drs), dr, fs.
        split; [by apply list_lookup_middle|]. done.
      * intros Hr.
        destruct (st.2 !! service) as [inner|] eqn:Hinner; simpl in Hr;
          [|by rewrite lookup_empty in Hr].
        destruct (IHo service inner y r Hinner Hr) as (i & d & f & Hi & ?).
        exists i, d, f. split; [by apply lookup_app_l_Some|]. done.
    + intros Hr. destruct (IHo k ex y r Hk Hr) as (i & d & f & Hi & ?).
      exists i, d, f. split; [by apply lookup_app_l_Some|]. done.
Qed.

(** X11.  What [Check] reports.  A name is in the findings exactly when it
    is the name of one of two checked objects of the input, the second
    later than the first, on compatible services (the same service, or one
    of them "*") and with overlapping subsets (a shared name, the sentinel
    held by the earlier one, or the later one with the single sentinel and
    the earlier one with at least one subset). *)
Theorem Check_flagged_iff (m : MultiMatchChecker) :
  ∃ validations,
    Check m = Some validations
    ∧ ∀ x, flagged validations x
           ↔ ∃ i j dr1 dr2 service1 fs1 service2 fs2,
               (i < j)%nat
               ∧ DestinationRules m !! i = Some dr1
               ∧ DestinationRules m !! j = Some dr2
               ∧ checked dr1 = Some (service1, fs1)
               ∧ checked dr2 = Some (service2, fs2)
               ∧ compatible service1 service2 ∧ overlaps fs1 fs2
               ∧ (x = nameOf dr1 ∨ x = nameOf dr2).
Proof.
  eexists. split; [apply Check_steps|]. intros x. split.
  - apply (flagged_has_partner (DestinationRules m)).
  - intros (i & j & d1 & d2 & s1 & f1 & s2 & f2
            & Hij & Hi & Hj & Hd1 & Hd2 & Hcompat & Hover & Hx).
    destruct (lookup_two_split _ i j d1 d2 Hij Hi Hj)
      as (before & between & after & ->).
    destruct (colliding_pair_flagged before between after d1 d2 s1 s2 f1 f2
                Hd1 Hd2 Hcompat Hover) as [H1 H2].
    by destruct Hx as [->| ->].
Qed.

(** ** Inputs without findings *)

Lemma no_flagged_empty (validations : IstioValidations) :
  wellFormed validations → (∀ x, ¬ flagged validations x) → validations = ∅.
Proof.
  intros Hwf Hnone. apply map_empty. intros k.
  destruct (validations !! k) as [x|] eqn:Hk; [|done].
  destruct (Hwf k x Hk) as [Hkey _]. destruct (Hnone (KeyName k)).
  exists x. unfold flagged. by rewrite <- Hkey.
Qed.

Lemma omap_lookup_two {A B : Type} (f : A → option B) (l : list A)
    (i j : nat) (a b : A) (x y : B) :
  (i < j)%nat → l !! i = Some a → l !! j = Some b →
  f a = Some x → f b = Some y →
  ∃ i' j', (i' < j')%nat ∧ omap f l !! i' = Some x ∧ omap f l !! j' = Some y.
Proof.
  revert i j. induction l as [|c l IH]; intros i j Hij Hi Hj Ha Hb; [done|].
  destruct j as [|j]; [lia|]. destruct i as [|i]; simpl in *.
  - injection Hi as ->. rewrite Ha. simpl.
    assert (y ∈ omap f l) as [j' Hj']%list_elem_of_lookup.
    { apply list_elem_of_omap. exists b. split; [|done].
      by eapply list_elem_of_lookup_2. }
    exists 0%nat, (S j'). split; [lia|]. done.
  - destruct (IH i j ltac:(lia) Hi Hj Ha Hb) as (i' & j' & Hij' & Hi' & Hj').
    destruct (f c); simpl.
    + exists (S i'), (S j'). split; [lia|]. done.
    + exists i', j'. done.
Qed.

Lemma checked_service (dr : IstioObject) (service : string)
    (fs : list subset) :
  checked dr = Some (service, fs) → fst <$> checked dr = Some service.
Proof. by intros ->. Qed.

(** X12.  When the checked objects of the input are on pairwise different
    services, none of them "*", [Check] reports nothing: objects on
    different concrete services never collide, whatever their subsets. *)
Theorem distinct_services_no_findings (m : MultiMatchChecker) :
  NoDup (services (DestinationRules m)) →
  "*" ∉ services (DestinationRules m) →
  Check m = Some ∅.
Proof.
  intros Hnodup Hwild. rewrite Check_steps. f_equal.
  apply no_flagged_empty; [apply wellFormed_Check|]. intros x Hx.
  apply (flagged_has_partner (DestinationRules m)) in Hx
    as (i & j & d1 & d2 & s1 & f1 & s2 & f2
        & Hij & Hi & Hj & Hd1 & Hd2 & Hcompat & _).
  apply checked_service in Hd1, Hd2.
  destruct (omap_lookup_two (λ dr, fst <$> checked dr) _ i j d1 d2 s1 s2
              Hij Hi Hj Hd1 Hd2)
    as (i' & j' & Hij' & Hi' & Hj').
  fold (services (DestinationRules m)) in Hi', Hj'.
  destruct Hcompat as [->|[->| ->]].
  - apply Hwild. by eapply list_elem_of_lookup_2.
  - apply Hwild. by eapply list_elem_of_lookup_2.
  - pose proof (NoDup_lookup _ i' j' s2 Hnodup Hi' Hj'). lia.
Qed.

Lemma distinct_services_no_findings_witness :
  NoDup (services [rule "r1" "reviews" ∅; rule "skipped" "*.local" mutualTLS;
                   rule "r2" "ratings.bookinfo" (subsetsOf ["~"])])
  ∧ ("*" ∉ services [rule "r1" "reviews" ∅;
                     rule "skipped" "*.local" mutualTLS;
                     rule "r2" "ratings.bookinfo" (subsetsOf ["~"])])
  ∧ Check {| DestinationRules :=
               [rule "r1" "reviews" ∅; rule "skipped" "*.local" mutualTLS;
                rule "r2" "ratings.bookinfo" (subsetsOf ["~"])] |}
    = Some ∅.
Proof.
  assert (NoDup (services [rule "r1" "reviews" ∅;
                           rule "skipped" "*.local" mutualTLS;
                           rule "r2" "ratings.bookinfo" (subsetsOf ["~"])]))
    as H1.
  { change (NoDup ["reviews"; "ratings"]). by apply (bool_decide_unpack _). }
  assert ("*" ∉ services [rule "r1" "reviews" ∅;
                          rule "skipped" "*.local" mutualTLS;
                          rule "r2" "ratings.bookinfo" (subsetsOf ["~"])])
    as H2.
  { change ("*" ∉ ["reviews"; "ratings"]). by apply (bool_decide_unpack _). }
  split; [exact H1|]. split; [exact H2|].
  exact (distinct_services_no_findings
           {| DestinationRules :=
                [rule "r1" "reviews" ∅; rule "skipped" "*.local" mutualTLS;
                 rule "r2" "ratings.bookinfo" (subsetsOf ["~"])] |} H1 H2).
Defined.

(** X13.  An input with fewer than two checked objects, so the empty input
    and an input with a single checked object among skipped ones, has no
    findings: an object never collides with itself. *)
Theorem fewer_than_two_checked_no_findings (m : MultiMatchChecker) :
  (length (services (DestinationRules m)) ≤ 1)%nat →
  Check m = Some ∅.
Proof.
  intros Hlen. rewrite Check_steps. f_equal.
  apply no_flagged_empty; [apply wellFormed_Check|]. intros x Hx.
  apply (flagged_has_partner (DestinationRules m)) in Hx
    as (i & j & d1 & d2 & s1 & f1 & s2 & f2
        & Hij & Hi & Hj & Hd1 & Hd2 & _).
  apply checked_service in Hd1, Hd2.
  destruct (omap_lookup_two (λ dr, fst <$> checked dr) _ i j d1 d2 s1 s2
              Hij Hi Hj Hd1 Hd2)
    as (i' & j' & Hij' & _ & Hj'%lookup_lt_Some).
  fold (services (DestinationRules m)) in Hj'. lia.
Qed.

Lemma fewer_than_two_checked_no_findings_witness :
  (length (services [rule "skipped" "*.local" mutualTLS;
                     rule "everywhere" "*" ∅]) ≤ 1)%nat
  ∧ Check {| DestinationRules :=
               [rule "skipped" "*.local" mutualTLS;
                rule "everywhere" "*" ∅] |}
    = Some ∅.
Proof.
  assert (length (services [rule "skipped" "*.local" mutualTLS;
                            rule "everywhere" "*" ∅]) ≤ 1)%nat as H.
  { change (length ["*"] ≤ 1)%nat. simpl. lia. }
  split; [exact H|].
  exact (fewer_than_two_checked_no_findings
           {| DestinationRules :=
                [rule "skipped" "*.local" mutualTLS;
                 rule "everywhere" "*" ∅] |} H).
Defined.

(** ** Objects without subsets *)

(** X14.  An object checked with the single sentinel subset, so one without
    a subset list, collides with every checked object that has at least one
    subset and is on the same service, or when either service is "*":
    both are flagged, wherever the two stand in the input and whichever
    comes first. *)
Theorem sentinel_collides_with_any_subset (drs : list IstioObject)
    (i j : nat) (dr1 dr2 : IstioObject) (service1 service2 : string)
    (fs2 : list subset) :
  i ≠ j →
  drs !! i = Some dr1 → drs !! j = Some dr2 →
  checked dr1 = Some (service1, [sentinel (nameOf dr1)]) →
  checked dr2 = Some (service2, fs2) →
  fs2 ≠ [] →
  service1 = service2 ∨ service1 = "*" ∨ service2 = "*" →
  ∃ validations,
    Check {| DestinationRules := drs |} = Some validations
    ∧ flagged validations (nameOf dr1) ∧ flagged validations (nameOf dr2).
Proof.
  intros Hij Hi Hj Hdr1 Hdr2 Hne Hs.
  eexists. split; [apply Check_steps|]. simpl.
  destruct (decide (i < j)%nat) as [Hlt|Hge].
  - destruct (lookup_two_split _ i j dr1 dr2 Hlt Hi Hj)
      as (before & between & after & ->).
    apply (colliding_pair_flagged before between after dr1 dr2
             service1 service2 _ _ Hdr1 Hdr2).
    + unfold compatible. naive_solver.
    + right; left. by left.
  - destruct (lookup_two_split _ j i dr2 dr1 ltac:(lia) Hj Hi)
      as (before & between & after & ->).
    apply and_comm.
    apply (colliding_pair_flagged before between after dr2 dr1
             service2 service1 _ _ Hdr2 Hdr1).
    + unfold compatible. naive_solver.
    + by left.
Qed.

Lemma sentinel_collides_with_any_subset_witness :
  1%nat ≠ 0%nat
  ∧ [rule "r2" "reviews.prod" (subsetsOf ["v1"]); rule "r1" "reviews" ∅]
      !! 1%nat = Some (rule "r1" "reviews" ∅)
  ∧ checked (rule "r1" "reviews" ∅) = Some ("reviews", [sentinel "r1"])
  ∧ checked (rule "r2" "reviews.prod" (subsetsOf ["v1"]))
    = Some ("reviews", subsetsNamed "r2" ["v1"])
  ∧ ∃ validations,
      Check {| DestinationRules :=
                 [rule "r2" "reviews.prod" (subsetsOf ["v1"]);
                  rule "r1" "reviews" ∅] |}
      = Some validations
      ∧ flagged validations "r1" ∧ flagged validations "r2".
Proof.
  split; [done|]. split; [done|]. split; [done|]. split; [done|].
  apply (sentinel_collides_with_any_subset
           [rule "r2" "reviews.prod" (subsetsOf ["v1"]);
            rule "r1" "reviews" ∅] 1 0
           (rule "r1" "reviews" ∅)
           (rule "r2" "reviews.prod" (subsetsOf ["v1"]))
           "reviews" "reviews" (subsetsNamed "r2" ["v1"]));
    try done. by left.
Defined.

(** X15.  An object whose subset list yields no subset (an empty list, or
    one without a valid name) registers nothing: a later object never
    collides with it.  It is still flagged itself when it comes after an
    object that holds the sentinel.  So the findings depend on the order of
    the input. *)
Theorem empty_subset_list_depends_on_order (empty other : IstioObject)
    (service service' : string) (fs : list subset) :
  checked empty = Some (service, []) →
  checked other = Some (service', fs) →
  Check {| DestinationRules := [empty; other] |} = Some ∅
  ∧ ("~" ∈ Name <$> fs → service = service' →
     ∃ validations,
       Check {| DestinationRules := [other; empty] |} = Some validations
       ∧ flagged validations (nameOf empty)
       ∧ flagged validations (nameOf other)).
Proof.
  intros Hempty Hother. split.
  - rewrite Check_steps. f_equal.
    apply no_flagged_empty; [apply wellFormed_Check|]. intros x Hx.
    apply (flagged_has_partner [empty; other]) in Hx
      as (i & j & d1 & d2 & s1 & f1 & s2 & f2
          & Hij & Hi & Hj & Hd1 & Hd2 & _ & Hover & _).
    destruct j as [|[|j]]; [lia| |done]. destruct i as [|i]; [|lia].
    simpl in Hi. injection Hi as <-. rewrite Hempty in Hd1.
    injection Hd1 as <- <-.
    destruct Hover as [[_ ?]|[Hin|(y & Hin & _)]]; [done|..];
      by apply elem_of_nil in Hin.
  - intros Htilde <-. eexists. split; [apply Check_steps|].
    apply and_comm.
    apply (colliding_pair_flagged [] [] [] other empty service service
             _ _ Hother Hempty).
    + by right; right.
    + by right; left.
Qed.

Lemma empty_subset_list_depends_on_order_witness :
  checked (rule "r1" "reviews" (subsetsOf [])) = Some ("reviews", [])
  ∧ checked (rule "r2" "reviews" ∅) = Some ("reviews", [sentinel "r2"])
  ∧ Check {| DestinationRules :=
               [rule "r1" "reviews" (subsetsOf []); rule "r2" "reviews" ∅] |}
    = Some ∅
  ∧ ∃ validations,
      Check {| DestinationRules :=
                 [rule "r2" "reviews" ∅;
                  rule "r1" "reviews" (subsetsOf [])] |}
      = Some validations
      ∧ flagged validations "r1" ∧ flagged validations "r2".
Proof.
  destruct (empty_subset_list_depends_on_order
              (rule "r1" "reviews" (subsetsOf [])) (rule "r2" "reviews" ∅)
              "reviews" "reviews" [sentinel "r2"]
              ltac:(reflexivity) ltac:(reflexivity))
    as [Hnone Hboth].
  split; [done|]. split; [done|]. split; [exact Hnone|].
  apply Hboth; [by left|done].
Defined.

(** ** Skipped objects and the growth of the result *)

(** X16.  An object without a [host] attribute, or whose [host] is not a
    string, is ignored: the body of the loop leaves the findings and the
    index as they are, and removing the object from the input leaves the
    result of [Check] unchanged. *)
Theorem hostless_object_is_ignored (before after : list IstioObject)
    (dr : IstioObject) :
  (∀ dHost, GetSpec dr !! "host" ≠ Some (VString dHost)) →
  (∀ st, Check_body st dr = Some st)
  ∧ Check {| DestinationRules := before ++ dr :: after |}
    = Check {| DestinationRules := before ++ after |}.
Proof.
  intros Hhost.
  assert (checked dr = None) as Hskip.
  { unfold checked.
    destruct (GetSpec dr !! "host") as [[| | |dHost| |]|]; try done.
    by destruct (Hhost dHost). }
  split.
  - intros st. by rewrite Check_body_step, step_skipped.
  - rewrite !Check_steps. simpl. rewrite !foldl_app. simpl.
    by rewrite step_skipped.
Qed.

Lemma hostless_object_is_ignored_witness :
  (∀ dHost,
     GetSpec {| GetSpec := <[ "host" := VInt 7 ]> (subsetsOf ["v1"]);
                GetObjectMeta := {| kubernetes.Name := "odd";
                                    kubernetes.Namespace := "bookinfo";
                                    ClusterName := "" |} |} !! "host"
     ≠ Some (VString dHost))
  ∧ Check {| DestinationRules :=
               [rule "r1" "reviews" (subsetsOf ["v1"])]
               ++ {| GetSpec := <[ "host" := VInt 7 ]> (subsetsOf ["v1"]);
                     GetObjectMeta := {| kubernetes.Name := "odd";
                                         kubernetes.Namespace := "bookinfo";
                                         ClusterName := "" |} |}
                  :: [rule "r2" "reviews" (subsetsOf ["v1"])] |}
    = Check {| DestinationRules :=
                 [rule "r1" "reviews" (subsetsOf ["v1"])]
                 ++ [rule "r2" "reviews" (subsetsOf ["v1"])] |}.
Proof.
  split; [done|].
  apply (hostless_object_is_ignored
           [rule "r1" "reviews" (subsetsOf ["v1"])]
           [rule "r2" "reviews" (subsetsOf ["v1"])]
           {| GetSpec := <[ "host" := VInt 7 ]> (subsetsOf ["v1"]);
              GetObjectMeta := {| kubernetes.Name := "odd";
                                  kubernetes.Namespace := "bookinfo";
                                  ClusterName := "" |} |}).
  done.
Defined.

Lemma step_findings_grow (st : IstioValidations * CollisionIndex)
    (dr : IstioObject) :
  st.1 ⊆ (step st dr).1.
Proof.
  unfold step. destruct (checked dr) as [[service fs]|]; [|done].
  apply map_union_subseteq_l.
Qed.

Lemma foldl_findings_grow (st : IstioValidations * CollisionIndex)
    (drs : list IstioObject) :
  st.1 ⊆ (foldl step st drs).1.
Proof.
  revert st. induction drs as [|dr drs IH]; intros st; simpl; [done|].
  etrans; [apply (step_findings_grow st dr)|apply IH].
Qed.

(** X17.  Findings are never retracted: the result of [Check] on an input
    is contained, entry by entry, in its result on any extension of that
    input by further objects. *)
Theorem findings_grow_with_input (drs more : list IstioObject) :
  ∃ validations validations',
    Check {| DestinationRules := drs |} = Some validations
    ∧ Check {| DestinationRules := drs ++ more |} = Some validations'
    ∧ validations ⊆ validations'.
Proof.
  eexists _, _. split; [apply Check_steps|]. split; [apply Check_steps|].
  simpl. rewrite foldl_app. apply foldl_findings_grow.
Qed.

(** X18.  [Check] reads an object through its name, the service of its
    normalised host, whether it is exempt, and its subsets, and through
    nothing else: two inputs whose objects agree on these, position by
    position, have the same result.  The namespace and the cluster of a
    host play no part. *)
Theorem Check_reads_name_service_subsets (drs1 drs2 : list IstioObject) :
  Forall2 (λ dr1 dr2, nameOf dr1 = nameOf dr2 ∧ checked dr1 = checked dr2)
    drs1 drs2 →
  Check {| DestinationRules := drs1 |} = Check {| DestinationRules := drs2 |}.
Proof.
  intros Hall. rewrite !Check_steps. simpl. do 2 f_equal.
  generalize (∅ : IstioValidations, ∅ : CollisionIndex).
  induction Hall as [|dr1 dr2 drs1 drs2 [Hname Hchecked] _ IH]; intros st;
    simpl; [done|].
  rewrite IH. f_equal. unfold step. by rewrite Hname, Hchecked.
Qed.

Lemma Check_reads_name_service_subsets_witness :
  Forall2 (λ dr1 dr2, nameOf dr1 = nameOf dr2 ∧ checked dr1 = checked dr2)
    [rule "r1" "reviews.prod.svc.cluster.local" ∅;
     rule "r2" "reviews.test" (subsetsOf ["v1"])]
    [rule "r1" "reviews" ∅; rule "r2" "reviews" (subsetsOf ["v1"])]
  ∧ Check {| DestinationRules :=
               [rule "r1" "reviews.prod.svc.cluster.local" ∅;
                rule "r2" "reviews.test" (subsetsOf ["v1"])] |}
    = Check {| DestinationRules :=
                 [rule "r1" "reviews" ∅;
                  rule "r2" "reviews" (subsetsOf ["v1"])] |}.
Proof.
  assert (Forall2
            (λ dr1 dr2, nameOf dr1 = nameOf dr2 ∧ checked dr1 = checked dr2)
            [rule "r1" "reviews.prod.svc.cluster.local" ∅;
             rule "r2" "reviews.test" (subsetsOf ["v1"])]
            [rule "r1" "reviews" ∅; rule "r2" "reviews" (subsetsOf ["v1"])])
    as H by (repeat constructor).
  split; [exact H|].
  exact (Check_reads_name_service_subsets _ _ H).
Defined.

(** ** The index after one object *)

(** X19.  After the body of the loop has run on a checked object, the index
    has an entry for the object's service, also when the object has no
    subset at all; in that entry the object owns each of its subset names,
    overwriting any earlier owner, and the other names keep their owner;
    the entries of the other services are untouched. *)
Theorem Check_body_registers (validations : IstioValidations)
    (seenHostSubsets : CollisionIndex) (dr : IstioObject) (service : string)
    (fs : list subset) :
  checked dr = Some (service, fs) →
  ∃ validations' seenHostSubsets',
    Check_body (validations, seenHostSubsets) dr
    = Some (validations', seenHostSubsets')
    ∧ (∀ k, k ≠ service → seenHostSubsets' !! k = seenHostSubsets !! k)
    ∧ ∃ inner,
        seenHostSubsets' !! service = Some inner
        ∧ ∀ x, inner !! x
               = if decide (x ∈ Name <$> fs) then Some (nameOf dr)
                 else seenHostSubsets !! service ≫= (.!! x).
Proof.
  intros Hdr. eexists _, _. split.
  { rewrite Check_body_step. unfold step. rewrite Hdr. done. }
  simpl. split.
  - intros k Hk. by rewrite lookup_insert_ne.
  - eexists. split; [apply lookup_insert_eq|]. intros x.
    rewrite lookup_claimed. case_decide; [done|].
    destruct (seenHostSubsets !! service); simpl; [done|].
    apply lookup_empty.
Qed.

Lemma Check_body_registers_witness :
  checked (rule "r2" "reviews" (subsetsOf ["v1"]))
  = Some ("reviews", subsetsNamed "r2" ["v1"])
  ∧ ∃ validations' seenHostSubsets',
      Check_body (∅, {[ "reviews" := {[ "v1" := "r1"; "v2" := "r1" ]} ]})
        (rule "r2" "reviews" (subsetsOf ["v1"]))
      = Some (validations', seenHostSubsets')
      ∧ (∀ k, k ≠ "reviews"
              → seenHostSubsets' !! k
                = ({[ "reviews" := {[ "v1" := "r1"; "v2" := "r1" ]} ]}
                     : CollisionIndex) !! k)
      ∧ ∃ inner,
          seenHostSubsets' !! "reviews" = Some inner
          ∧ ∀ x, inner !! x
                 = if decide (x ∈ Name <$> subsetsNamed "r2" ["v1"])
                   then Some "r2"
                   else ({[ "reviews" := {[ "v1" := "r1"; "v2" := "r1" ]} ]}
                           : CollisionIndex) !! "reviews" ≫= (.!! x).
Proof.
  split; [reflexivity|].
  apply (Check_body_registers ∅
           {[ "reviews" := {[ "v1" := "r1"; "v2" := "r1" ]} ]}
           (rule "r2" "reviews" (subsetsOf ["v1"])) "reviews"
           (subsetsNamed "r2" ["v1"])).
  reflexivity.
Defined.

(** ** The subset extractor: malformed entries *)

(** X20.  An entry of the subset list that is not a map with a string
    [name] has no effect on the other entries: the extractor returns the
    same subsets, in the same order, as for the list without that entry. *)
Theorem malformed_entry_is_dropped (dr dr' : IstioObject) (owner : string)
    (entries entries' : list value) (se : value) :
  declaredName se = None →
  GetSpec dr !! "subsets" = Some (VSlice (entries ++ se :: entries')) →
  GetSpec dr' !! "subsets" = Some (VSlice (entries ++ entries')) →
  extractSubsets dr owner = extractSubsets dr' owner.
Proof.
  intros Hse Hdr Hdr'.
  rewrite (extractSubsets_slice dr owner _ Hdr),
    (extractSubsets_slice dr' owner _ Hdr').
  rewrite !omap_app. simpl. by rewrite Hse.
Qed.

Lemma malformed_entry_is_dropped_witness :
  declaredName (VMap {[ "name" := VInt 1 ]}) = None
  ∧ extractSubsets
      (rule "r1" "reviews"
         {[ "subsets" :=
              VSlice ([named "v1"]
                      ++ VMap {[ "name" := VInt 1 ]} :: [named "v2"]) ]})
      "r1"
    = extractSubsets
        (rule "r1" "reviews"
           {[ "subsets" := VSlice ([named "v1"] ++ [named "v2"]) ]})
        "r1".
Proof.
  split; [reflexivity|].
  apply (malformed_entry_is_dropped _ _ "r1" [named "v1"] [named "v2"]
           (VMap {[ "name" := VInt 1 ]})); reflexivity.
Defined.

(** ** Two objects on one service, and a wildcard object *)





(** C4, as the code has it.  An object checked on the service "*", so a
    wildcard object that the exemption filter rejects, and an object
    checked on any service that declare a common subset [x] are both
    flagged, wherever the two stand in the input and whichever comes first;
    in particular by the check of the two alone, in either order. *)
Theorem wildcard_collides_in_either_order (drs : list IstioObject)
    (i j : nat) (wild other : IstioObject) (service x : string)
    (fsWild fsOther : list subset) :
  i ≠ j →
  drs !! i = Some wild → drs !! j = Some other →
  checked wild = Some ("*", fsWild) →
  checked other = Some (service, fsOther) →
  x ∈ Name <$> fsWild →
  x ∈ Name <$> fsOther →
  (∃ validations,
     Check {| DestinationRules := drs |} = Some validations
     ∧ flagged validations (nameOf wild)
     ∧ flagged validations (nameOf other))
  ∧ (∃ validations,
       Check {| DestinationRules := [wild; other] |} = Some validations
       ∧ flagged validations (nameOf wild)
       ∧ flagged validations (nameOf other))
  ∧ (∃ validations,
       Check {| DestinationRules := [other; wild] |} = Some validations
       ∧ flagged validations (nameOf wild)
       ∧ flagged validations (nameOf other)).
Proof.
  intros Hij Hi Hj Hwild Hother HxW HxO.
  assert (∀ before between after,
            let st := foldl step (∅, ∅)
                        (before ++ wild :: between ++ other :: after) in
            flagged st.1 (nameOf wild) ∧ flagged st.1 (nameOf other))
    as Hfirst.
  { intros before between after.
    apply (overlap_flags_both before between after wild other "*" service x
             fsWild fsOther); auto. }
  assert (∀ before between after,
            let st := foldl step (∅, ∅)
                        (before ++ other :: between ++ wild :: after) in
            flagged st.1 (nameOf wild) ∧ flagged st.1 (nameOf other))
    as Hsecond.
  { intros before between after. apply and_comm.
    apply (overlap_flags_both before between after other wild service "*" x
             fsOther fsWild); auto. }
  split; [|split].
  - eexists. split; [apply Check_steps|]. simpl.
    destruct (decide (i < j)%nat) as [Hlt|Hge].
    + destruct (lookup_two_split _ i j wild other Hlt Hi Hj)
        as (before & between & after & ->). apply Hfirst.
    + destruct (lookup_two_split _ j i other wild ltac:(lia) Hj Hi)
        as (before & between & after & ->). apply Hsecond.
  - eexists. split; [apply Check_steps|]. apply (Hfirst [] [] []).
  - eexists. split; [apply Check_steps|]. apply (Hsecond [] [] []).
Qed.

Lemma wildcard_collides_in_either_order_witness :
  2%nat ≠ 0%nat
  ∧ [rule "r1" "reviews" (subsetsOf ["v1"]);
     rule "r2" "ratings" (subsetsOf ["v2"]);
     rule "everywhere" "*" (subsetsOf ["v1"])] !! 2%nat
    = Some (rule "everywhere" "*" (subsetsOf ["v1"]))
  ∧ checked (rule "everywhere" "*" (subsetsOf ["v1"]))
    = Some ("*", subsetsNamed "everywhere" ["v1"])
  ∧ checked (rule "r1" "reviews" (subsetsOf ["v1"]))
    = Some ("reviews", subsetsNamed "r1" ["v1"])
  ∧ (∃ validations,
       Check {| DestinationRules :=
                  [rule "r1" "reviews" (subsetsOf ["v1"]);
                   rule "r2" "ratings" (subsetsOf ["v2"]);
                   rule "everywhere" "*" (subsetsOf ["v1"])] |}
       = Some validations
       ∧ flagged validations "everywhere" ∧ flagged validations "r1")
  ∧ (∃ validations,
       Check {| DestinationRules :=
                  [rule "everywhere" "*" (subsetsOf ["v1"]);
                   rule "r1" "reviews" (subsetsOf ["v1"])] |}
       = Some validations
       ∧ flagged validations "everywhere" ∧ flagged validations "r1")
  ∧ (∃ validations,
       Check {| DestinationRules :=
                  [rule "r1" "reviews" (subsetsOf ["v1"]);
                   rule "everywhere" "*" (subsetsOf ["v1"])] |}
       = Some validations
       ∧ flagged validations "everywhere" ∧ flagged validations "r1").
Proof.
  split; [done|]. split; [reflexivity|]. split; [reflexivity|].
  split; [reflexivity|].
  apply (wildcard_collides_in_either_order
           [rule "r1" "reviews" (subsetsOf ["v1"]);
            rule "r2" "ratings" (subsetsOf ["v2"]);
            rule "everywhere" "*" (subsetsOf ["v1"])] 2 0
           (rule "everywhere" "*" (subsetsOf ["v1"]))
           (rule "r1" "reviews" (subsetsOf ["v1"])) "reviews" "v1"
           (subsetsNamed "everywhere" ["v1"]) (subsetsNamed "r1" ["v1"]));
    try reflexivity; try done; simpl; by left.
Defined.

(** C4 fails as stated.  A wildcard object whose TLS mode is
    "ISTIO_MUTUAL" is exempt: with the host "*" and the subset v1 it is
    skipped, and the check of it and of the object "r1" on "reviews" with
    the subset v1 reports nothing, in either order. *)
Lemma exempt_wildcard_does_not_collide :
  enablesNonLocalmTLS (rule "everywhere" "*" (subsetsOf ["v1"] ∪ mutualTLS))
    {| Service := "*"; Namespace := "bookinfo"; Cluster := "" |} = true
  ∧ extractSubsets (rule "everywhere" "*" (subsetsOf ["v1"] ∪ mutualTLS))
      "everywhere"
    = subsetsNamed "everywhere" ["v1"]
  ∧ Check {| DestinationRules :=
               [rule "everywhere" "*" (subsetsOf ["v1"] ∪ mutualTLS);
                rule "r1" "reviews" (subsetsOf ["v1"])] |}
    = Some ∅
  ∧ Check {| DestinationRules :=
               [rule "r1" "reviews" (subsetsOf ["v1"]);
                rule "everywhere" "*" (subsetsOf ["v1"] ∪ mutualTLS)] |}
    = Some ∅.
Proof. repeat split; reflexivity. Qed.
